(** * Identity reconciliation service: a shallow embedding of
      [src/services/contact.service.ts] and the properties of its
      [identifyContact] entry point.

    The [Contact] table behind [prisma.contact] is an explicit value that
    every operation receives and returns.  A table is the list of its rows in
    insertion order together with the auto-increment counter of the [id]
    column; the clock that stamps [createdAt] is an argument of the calls that
    insert a row. *)

From Stdlib Require Import String Ascii ZArith List Bool Lia Relations.
From Stdlib Require Import Sorted Permutation.
Import ListNotations.
Local Open Scope Z_scope.

(* ================================================================= *)
(** ** Data model *)

(** [linkPrecedence: "primary" | "secondary"]. *)
Inductive LinkPrecedence : Type :=
  | primary
  | secondary.

(** [type Contact] of the service; dates are milliseconds since the epoch,
    which is what [getTime()] compares. *)
Record Contact : Type := mkContact {
  id : Z;
  phoneNumber : option string;
  email : option string;
  linkedId : option Z;
  linkPrecedence : LinkPrecedence;
  createdAt : Z;
  updatedAt : Z;
  deletedAt : option Z
}.

(** The table: rows in insertion order and the next value of the
    auto-increment sequence. *)
Record Store : Type := mkStore {
  rows : list Contact;
  nextId : Z
}.

(** [interface IdentifyResponse], without the [contact] wrapper; the
    misspelt key is the source's. *)
Record IdentifyResponse : Type := mkResponse {
  primaryContatctId : Z;
  emails : list string;
  phoneNumbers : list string;
  secondaryContactIds : list Z
}.

(** One equality clause of a [where] argument. *)
Inductive Cond : Type :=
  | ByEmail (e : string)
  | ByPhoneNumber (p : string)
  | ById (i : Z)
  | ByLinkedId (i : Z).

(** The [where] arguments the service builds: one clause, or [{ OR: [...] }]. *)
Inductive Where : Type :=
  | Single (c : Cond)
  | OR (cs : list Cond).

(* ================================================================= *)
(** ** Small helpers: the option monad, JavaScript truthiness *)

Definition bind {A B : Type} (m : option A) (k : A -> option B) : option B :=
  match m with
  | Some a => k a
  | None => None
  end.

Notation "x <- m ;; k" := (bind m (fun x => k))
  (at level 61, m at next level, right associativity).

(** [if (v)] on a [string | null]: [null] and the empty string are falsy. *)
Definition truthy (v : option string) : bool :=
  match v with
  | Some str => negb (String.eqb str EmptyString)
  | None => false
  end.

(** [arr.includes(x)] and [set.has(x)] on strings. *)
Definition includes (x : string) (l : list string) : bool :=
  existsb (String.eqb x) l.

Definition optStringIs (x : string) (v : option string) : bool :=
  match v with
  | Some y => String.eqb y x
  | None => false
  end.

Definition optZIs (x : Z) (v : option Z) : bool :=
  match v with
  | Some y => y =? x
  | None => false
  end.

(* ================================================================= *)
(** ** Sorting by [createdAt]

    Both [orderBy: { createdAt: "asc" }] and
    [sort((a, b) => a.createdAt.getTime() - b.createdAt.getTime())] order by
    the creation time alone.  [Array.prototype.sort] is stable; for the
    database the order among equal keys is taken to be the row order. *)

Fixpoint insertByCreatedAt (x : Contact) (l : list Contact) : list Contact :=
  match l with
  | [] => [x]
  | y :: l' =>
      if createdAt x <=? createdAt y then x :: l
      else y :: insertByCreatedAt x l'
  end.

Definition sortByCreatedAt (l : list Contact) : list Contact :=
  fold_right insertByCreatedAt [] l.

(* ================================================================= *)
(** ** The store operations used by the service ([ContactClient]) *)

Definition satisfies (k : Cond) (c : Contact) : bool :=
  match k with
  | ByEmail e => optStringIs e (email c)
  | ByPhoneNumber p => optStringIs p (phoneNumber c)
  | ById i => id c =? i
  | ByLinkedId i => optZIs i (linkedId c)
  end.

(** An [OR] over no clause selects no row. *)
Definition selects (w : Where) (c : Contact) : bool :=
  match w with
  | Single k => satisfies k c
  | OR ks => existsb (fun k => satisfies k c) ks
  end.

Definition findUnique (s : Store) (i : Z) : option Contact :=
  find (fun c => id c =? i) (rows s).

Definition findMany (s : Store) (w : Where) (orderBy : bool) : list Contact :=
  let found := filter (selects w) (rows s) in
  if orderBy then sortByCreatedAt found else found.

(** [create]: the row gets the next id and the current time; [linkedId] is
    [null] when the caller leaves it out. *)
Definition create (s : Store) (now : Z) (e p : option string)
    (l : option Z) (lp : LinkPrecedence) : Store * Contact :=
  let c := mkContact (nextId s) p e l lp now now None in
  (mkStore (rows s ++ [c]) (nextId s + 1), c).

Definition setLink (l : Z) (lp : LinkPrecedence) (c : Contact) : Contact :=
  mkContact (id c) (phoneNumber c) (email c) (Some l) lp
            (createdAt c) (updatedAt c) (deletedAt c).

Definition setLinkedId (l : Z) (c : Contact) : Contact :=
  mkContact (id c) (phoneNumber c) (email c) (Some l) (linkPrecedence c)
            (createdAt c) (updatedAt c) (deletedAt c).

(** [update({ where: { id }, data: { linkedId, linkPrecedence } })]: writes
    the two fields of the row with that id ([id] is the primary key) and
    throws, here [None], when there is no such row.  Only the fields named
    in [data] are written; what a database may refresh by itself on a write
    is outside the model. *)
Definition update (s : Store) (i : Z) (l : Z) (lp : LinkPrecedence)
    : option Store :=
  match findUnique s i with
  | None => None
  | Some _ =>
      Some (mkStore
              (map (fun c => if id c =? i then setLink l lp c else c) (rows s))
              (nextId s))
  end.

(** [updateMany({ where: { linkedId: old }, data: { linkedId: new } })],
    with the count of rows written. *)
Definition updateMany (s : Store) (old new : Z) : Store * nat :=
  (mkStore
     (map (fun c => if optZIs old (linkedId c) then setLinkedId new c else c)
          (rows s))
     (nextId s),
   length (filter (fun c => optZIs old (linkedId c)) (rows s))).

(* ================================================================= *)
(** ** The service *)

(** [findPrimaryContact]: follows [linkedId] upward.  The [while] loop is
    unbounded in the source; [fuel] bounds the number of times its body may
    run to completion, and [None] stands for a loop that has not ended
    within that bound. *)
Fixpoint findPrimaryContact (fuel : nat) (s : Store) (current : Contact)
    : option Contact :=
  match linkedId current with
  | None => Some current
  | Some l =>
      match findUnique s l with
      | None => Some current
      | Some parent =>
          match fuel with
          | O => None
          | S fuel' => findPrimaryContact fuel' s parent
          end
      end
  end.

(** [if (v && !acc.includes(v)) acc.push(v)]. *)
Definition pushIfNew (v : option string) (acc : list string) : list string :=
  match v with
  | Some str =>
      if truthy v && negb (includes str acc) then acc ++ [str] else acc
  | None => acc
  end.

(** [if (v) acc.push(v)]. *)
Definition pushIfTruthy (v : option string) (acc : list string) : list string :=
  match v with
  | Some str => if truthy v then acc ++ [str] else acc
  | None => acc
  end.

(** The three accumulators of [buildResponse]. *)
Definition Acc : Type := (list string * list string * list Z)%type.

Definition collect (acc : Acc) (sc : Contact) : Acc :=
  let '(es, ps, ids) := acc in
  (pushIfNew (email sc) es, pushIfNew (phoneNumber sc) ps, ids ++ [id sc]).

Definition buildResponse (s : Store) (primaryContact : Contact)
    : IdentifyResponse :=
  let secondaryContacts :=
    findMany s (Single (ByLinkedId (id primaryContact))) true in
  let start : Acc :=
    (pushIfTruthy (email primaryContact) [],
     pushIfTruthy (phoneNumber primaryContact) [],
     []) in
  let '(es, ps, ids) := fold_left collect secondaryContacts start in
  mkResponse (id primaryContact) es ps ids.

(** [conditions]: one clause per truthy argument. *)
Definition conditions (reqEmail reqPhone : option string) : list Cond :=
  (match reqEmail with
   | Some e => if truthy reqEmail then [ByEmail e] else []
   | None => []
   end) ++
  (match reqPhone with
   | Some p => if truthy reqPhone then [ByPhoneNumber p] else []
   | None => []
   end).

Definition matchingContacts (s : Store) (reqEmail reqPhone : option string)
    : list Contact :=
  findMany s (OR (conditions reqEmail reqPhone)) true.

(** [Map.prototype.set]: a known key keeps its place and takes the new value,
    a new key goes last. *)
Fixpoint mapSet (k : Z) (v : Contact) (m : list (Z * Contact))
    : list (Z * Contact) :=
  match m with
  | [] => [(k, v)]
  | (k', v') :: m' =>
      if k' =? k then (k, v) :: m' else (k', v') :: mapSet k v m'
  end.

(** The loop that fills [primarySet]. *)
Fixpoint resolveLoop (fuel : nat) (s : Store) (cs : list Contact)
    (primarySet : list (Z * Contact)) : option (list (Z * Contact)) :=
  match cs with
  | [] => Some primarySet
  | c :: cs' =>
      prim <- findPrimaryContact fuel s c ;;
      resolveLoop fuel s cs' (mapSet (id prim) prim primarySet)
  end.

(** [primaries]: the values of [primarySet], sorted by creation time. *)
Definition resolvePrimaries (fuel : nat) (s : Store) (matching : list Contact)
    : option (list Contact) :=
  primarySet <- resolveLoop fuel s matching [] ;;
  Some (sortByCreatedAt (map snd primarySet)).

(** One turn of the merge loop: demote [other], then re-parent its children. *)
Definition demote (canonicalPrimary other : Contact) (s : Store)
    : option Store :=
  s1 <- update s (id other) (id canonicalPrimary) secondary ;;
  Some (fst (updateMany s1 (id other) (id canonicalPrimary))).

(** [for (let i = 1; i < primaries.length; i++)], over [primaries.slice(1)]. *)
Fixpoint mergeLoop (canonicalPrimary : Contact) (others : list Contact)
    (s : Store) : option Store :=
  match others with
  | [] => Some s
  | other :: rest =>
      s' <- demote canonicalPrimary other s ;;
      mergeLoop canonicalPrimary rest s'
  end.

(** [allLinked]: the canonical primary and the rows linked to it. *)
Definition allLinked (s : Store) (canonicalPrimary : Contact) : list Contact :=
  findMany s (OR [ById (id canonicalPrimary); ByLinkedId (id canonicalPrimary)])
           false.

(** [new Set(allLinked.map(f).filter(Boolean))], as the list of its members. *)
Definition existingValues (f : Contact -> option string) (l : list Contact)
    : list string :=
  flat_map (fun c => match f c with
                     | Some v => if truthy (f c) then [v] else []
                     | None => []
                     end) l.

(** [v !== null && !existing.has(v)]. *)
Definition hasNew (v : option string) (existing : list string) : bool :=
  match v with
  | Some str => negb (includes str existing)
  | None => false
  end.

Definition hasNewInformation (s : Store) (canonicalPrimary : Contact)
    (reqEmail reqPhone : option string) : bool :=
  let linked := allLinked s canonicalPrimary in
  let hasNewEmail := hasNew reqEmail (existingValues email linked) in
  let hasNewPhone := hasNew reqPhone (existingValues phoneNumber linked) in
  hasNewEmail || hasNewPhone.

(** [identifyContact(email, phoneNumber)], on the table [s] at time [now].
    [None]: a store call threw, [primaries[0]] was undefined, or a chain walk
    did not end within [fuel]. *)
Definition identifyContact (fuel : nat) (now : Z) (s : Store)
    (reqEmail reqPhone : option string) : option (Store * IdentifyResponse) :=
  match matchingContacts s reqEmail reqPhone with
  | [] =>
      let '(s1, newContact) := create s now reqEmail reqPhone None primary in
      Some (s1, buildResponse s1 newContact)
  | matching =>
      primaries <- resolvePrimaries fuel s matching ;;
      match primaries with
      | [] => None
      | canonicalPrimary :: others =>
          s1 <- mergeLoop canonicalPrimary others s ;;
          let s2 :=
            if hasNewInformation s1 canonicalPrimary reqEmail reqPhone
            then fst (create s1 now reqEmail reqPhone
                             (Some (id canonicalPrimary)) secondary)
            else s1 in
          Some (s2, buildResponse s2 canonicalPrimary)
      end
  end.

(** The route handler's preparation of one body field:
    [v ? String(v).trim() : null], for a field that is a string or missing.
    [trim] is modelled on the ASCII white space: space, tab, line feed,
    vertical tab, form feed, carriage return. *)
Definition isBlank (a : ascii) : bool :=
  let n := nat_of_ascii a in
  ((n =? 32) || ((9 <=? n) && (n <=? 13)))%nat.

Fixpoint trimStart (str : string) : string :=
  match str with
  | EmptyString => EmptyString
  | String a rest => if isBlank a then trimStart rest else str
  end.

Fixpoint rev_string (str acc : string) : string :=
  match str with
  | EmptyString => acc
  | String a rest => rev_string rest (String a acc)
  end.

Definition trim (str : string) : string :=
  rev_string (trimStart (rev_string (trimStart str) EmptyString)) EmptyString.

Definition prepareField (v : option string) : option string :=
  match v with
  | Some str => if truthy v then Some (trim str) else None
  | None => None
  end.

(** The [POST /identify] handler: [None] is the 400 answer. *)
Definition handleIdentify (fuel : nat) (now : Z) (s : Store)
    (bodyEmail bodyPhone : option string)
    : option (option (Store * IdentifyResponse)) :=
  let emailStr := prepareField bodyEmail in
  let phoneStr := prepareField bodyPhone in
  if negb (truthy emailStr) && negb (truthy phoneStr) then None
  else Some (identifyContact fuel now s emailStr phoneStr).

(* ================================================================= *)
(** ** Vocabulary of the properties *)

(** [parentOf s c p]: [c.linkedId] names a row of the table, and
    [findUnique] answers [p] for it. *)
Definition parentOf (s : Store) (c p : Contact) : Prop :=
  exists l, linkedId c = Some l /\ findUnique s l = Some p.

(** No contact reaches itself by following [linkedId]. *)
Definition acyclic (s : Store) : Prop :=
  forall c, ~ clos_trans Contact (parentOf s) c c.

(** Where [findPrimaryContact] stops: no [linkedId], or one that names no
    row of the table. *)
Definition chainEnd (s : Store) (c : Contact) : Prop :=
  linkedId c = None \/
  exists l, linkedId c = Some l /\ findUnique s l = None.


(** Two contacts that differ at most in [linkedId] and [linkPrecedence]. *)
Definition sameData (c c' : Contact) : Prop :=
  id c' = id c /\
  email c' = email c /\
  phoneNumber c' = phoneNumber c /\
  createdAt c' = createdAt c /\
  updatedAt c' = updatedAt c /\
  deletedAt c' = deletedAt c.

(** What one turn of the merge loop does to a row: the [update] of the row
    with id [o], then the [updateMany] of the rows linked to [o]. *)
Definition demoteRow (can o : Z) (c : Contact) : Contact :=
  if id c =? o then setLink can secondary c else c.

Definition reparentRow (can o : Z) (c : Contact) : Contact :=
  if optZIs o (linkedId c) then setLinkedId can c else c.

Definition relinkRow (can o : Z) (c : Contact) : Contact :=
  reparentRow can o (demoteRow can o c).

(** The row the calls of [identifyContact] insert. *)
Definition newRow (s : Store) (now : Z) (e p : option string)
    (l : option Z) (lp : LinkPrecedence) : Contact :=
  mkContact (nextId s) p e l lp now now None.

(** The rows of [s'] beyond those [s] had: what a call inserted. *)
Definition insertedRows (s s' : Store) : list Contact :=
  skipn (length (rows s)) (rows s').

(** The rows of [s'] at the places [s] had rows. *)
Definition keptRows (s s' : Store) : list Contact :=
  firstn (length (rows s)) (rows s').

(** [a] was created no later than [b]. *)
Definition notAfter (a b : Contact) : Prop := createdAt a <= createdAt b.

(** Every [linkedId] names an id the sequence has already handed out. *)
Definition linksAssigned (s : Store) : Prop :=
  forall c l, In c (rows s) -> linkedId c = Some l -> l < nextId s.

(** A check that is enough for [acyclic]: every link points at a lower id. *)
Definition linksGoDown (s : Store) : bool :=
  forallb (fun c => match linkedId c with
                    | Some l => l <? id c
                    | None => true
                    end) (rows s).

(** No row matches the request: every given field differs from the row's. *)
Definition unknownTo (s : Store) (reqEmail reqPhone : option string) : Prop :=
  forall c, In c (rows s) ->
    (reqEmail <> None -> email c <> reqEmail) /\
    (reqPhone <> None -> phoneNumber c <> reqPhone).

(* ================================================================= *)
(** ** Example tables *)

Definition row (i : Z) (e p : option string) (l : option Z)
    (lp : LinkPrecedence) (t : Z) : Contact :=
  mkContact i p e l lp t t None.

Definition emptyStore : Store := mkStore [] 1.

(** Two customers whose primaries were inserted within the same millisecond,
    each with one secondary. *)
Definition twoGroups : Store :=
  mkStore
    [ row 1 (Some "doc@hv.edu"%string) (Some "111"%string) None primary 5;
      row 2 (Some "marty@hv.edu"%string) (Some "222"%string) None primary 5;
      row 3 (Some "emmett@hv.edu"%string) (Some "222"%string) (Some 2) secondary 6;
      row 4 (Some "doc@hv.edu"%string) (Some "333"%string) (Some 1) secondary 7 ]
    5.

(** The view named by the specification: each value once, at the place of
    its first occurrence. *)
Fixpoint keepFirst (l : list string) : list string :=
  match l with
  | [] => []
  | x :: l' => x :: filter (fun y => negb (String.eqb y x)) (keepFirst l')
  end.

(** The rows linked to [prim], in the order [buildResponse] reads them. *)
Definition secondariesOf (s : Store) (prim : Contact) : list Contact :=
  findMany s (Single (ByLinkedId (id prim))) true.

(** A primary whose email is the empty string, and its secondary. *)
Definition blankPrimary : Store :=
  mkStore
    [ row 1 (Some EmptyString) (Some "123"%string) None primary 5;
      row 2 (Some "biff@hv.edu"%string) (Some "123"%string) (Some 1) secondary 6 ]
    3.

(** [if (!a.includes(v)) a.push(v)], for a value known to be truthy. *)
Definition push (a : list string) (v : string) : list string :=
  if includes v a then a else a ++ [v].

(** Each id once, at the place of its first occurrence: the key order of a
    [Map] filled by successive [set] calls. *)
Fixpoint firstIds (l : list Z) : list Z :=
  match l with
  | [] => []
  | k :: l' => k :: filter (fun j => negb (j =? k)) (firstIds l')
  end.

(** [roots] are the chain ends of [cs], contact by contact. *)
Definition resolvesTo (fuel : nat) (s : Store) (cs roots : list Contact)
    : Prop :=
  Forall2 (fun c r => findPrimaryContact fuel s c = Some r) cs roots.

(** The merge loop in one step: what it has done to a row once every id of
    [demoted] was processed. *)
Definition mergeRow (can : Z) (demoted : list Z) (c : Contact) : Contact :=
  if existsb (Z.eqb (id c)) demoted then setLink can secondary c
  else if match linkedId c with
          | Some l => existsb (Z.eqb l) demoted
          | None => false
          end
       then setLinkedId can c
       else c.

(** What the merge promises for a row [c] of the old table and the row [c']
    that took its place. *)
Definition mergedInto (can : Contact) (others : list Contact)
    (resp : IdentifyResponse) (c c' : Contact) : Prop :=
  sameData c c' /\
  (In (id c) (map id others) ->
   linkPrecedence c' = secondary /\ linkedId c' = Some (id can) /\
   In (id c) (secondaryContactIds resp)) /\
  (forall o, In o others -> linkedId c = Some (id o) ->
   linkedId c' = Some (id can) /\ In (id c) (secondaryContactIds resp)).

(* ================================================================= *)
(** ** Identity groups *)

(** [id] is the primary key. *)
Definition uniqueIds (s : Store) : Prop := NoDup (map id (rows s)).

(** Every id in the table came from the sequence. *)
Definition idsAssigned (s : Store) : Prop :=
  forall c, In c (rows s) -> id c < nextId s.

(** Groups are flat: a row is a primary without a link, or a secondary whose
    [linkedId] names a primary of the table that is not younger than it. *)
Definition flat (s : Store) : Prop :=
  forall c, In c (rows s) ->
    (linkPrecedence c = primary /\ linkedId c = None) \/
    (linkPrecedence c = secondary /\
     exists P, In P (rows s) /\ linkedId c = Some (id P) /\
               linkPrecedence P = primary /\ linkedId P = None /\
               createdAt P <= createdAt c).

Definition groupInvariant (s : Store) : Prop :=
  uniqueIds s /\ idsAssigned s /\ flat s.

(** [a] is linked to [b]; an identity group is a class of the equivalence
    this generates. *)
Definition linked (s : Store) (a b : Contact) : Prop :=
  In a (rows s) /\ In b (rows s) /\ linkedId a = Some (id b).

Definition sameGroup (s : Store) : Contact -> Contact -> Prop :=
  clos_refl_sym_trans Contact (linked s).

(** The three statements about groups, for a whole table. *)
Definition onePrimaryPerGroup (s : Store) : Prop :=
  forall a b, In a (rows s) -> In b (rows s) -> sameGroup s a b ->
    linkPrecedence a = primary -> linkPrecedence b = primary -> a = b.

Definition groupHasPrimary (s : Store) : Prop :=
  forall c, In c (rows s) ->
    exists P, In P (rows s) /\ sameGroup s c P /\ linkPrecedence P = primary.

Definition othersPointAtPrimary (s : Store) : Prop :=
  forall c P, In c (rows s) -> In P (rows s) -> sameGroup s c P ->
    linkPrecedence P = primary ->
    c = P \/ (linkPrecedence c = secondary /\ linkedId c = Some (id P)).

Definition primaryIsEarliest (s : Store) : Prop :=
  forall c P, In c (rows s) -> In P (rows s) -> sameGroup s c P ->
    linkPrecedence P = primary -> createdAt P <= createdAt c.

(** The clock has not gone back: no row is stamped later than [now]. *)
Definition clockOk (s : Store) (now : Z) : Prop :=
  forall c, In c (rows s) -> createdAt c <= now.

(** The tables that calls of [identifyContact] lead to from [s0]. *)
Inductive reachable (s0 : Store) : Store -> Prop :=
  | reach_here : reachable s0 s0
  | reach_call (s : Store) (fuel : nat) (now : Z) (e p : option string)
      (s' : Store) (r : IdentifyResponse) :
      reachable s0 s ->
      clockOk s now ->
      identifyContact fuel now s e p = Some (s', r) ->
      reachable s0 s'.

(** The id a group hangs from, read off one of its rows. *)
Definition rootId (c : Contact) : Z :=
  match linkedId c with
  | Some l => l
  | None => id c
  end.

(* ================================================================= *)
(** ** New information, in the specification's words *)

(** [v] is the email, or the phone number, of a row of the group. *)
Definition knownEmail (group : list Contact) (v : string) : Prop :=
  exists c, In c group /\ email c = Some v.

Definition knownPhone (group : list Contact) (v : string) : Prop :=
  exists c, In c group /\ phoneNumber c = Some v.

(** The request brings a non-null email the group does not have, or a
    non-null phone number the group does not have. *)
Definition bringsNew (group : list Contact) (reqEmail reqPhone : option string)
    : Prop :=
  (exists v, reqEmail = Some v /\ ~ knownEmail group v) \/
  (exists v, reqPhone = Some v /\ ~ knownPhone group v).

(** A request field the service reads as given or as missing in the same way
    everywhere: null, or a string that is not empty. *)
Definition plain (v : option string) : Prop :=
  v <> Some EmptyString.

(** The table after [POST /identify] with a blank email and phone "123" on
    the empty table. *)
Definition blankOnly : Store :=
  mkStore [ row 1 (Some EmptyString) (Some "123"%string) None primary 5 ] 2.

(** The specification's field-set example: [{A, P1}] and [{B, P2}] in one
    group. *)
Definition splitPairing : Store :=
  mkStore
    [ row 1 (Some "a@hv.edu"%string) (Some "111"%string) None primary 5;
      row 2 (Some "b@hv.edu"%string) (Some "222"%string) (Some 1) secondary 6 ]
    3.

(** [a] was created before [b]: an earlier [createdAt], or the same one and
    a lower id. *)
Definition createdBefore (a b : Contact) : Prop :=
  createdAt a < createdAt b \/ (createdAt a = createdAt b /\ id a < id b).

(** No row of a group was created before the group's primary, ties on
    [createdAt] being broken by id. *)
Definition primaryIsFirst (s : Store) : Prop :=
  forall c P, In c (rows s) -> In P (rows s) -> sameGroup s c P ->
    linkPrecedence P = primary -> ~ createdBefore c P.

(* ================================================================= *)
(** ** Tactics for concrete tables *)

(** Goes through the rows of a concrete table. *)
Ltac rows_cases H :=
  cbn in H; repeat (destruct H as [<- | H]; [cbn; try lia |]); try destruct H.

(** Extends a proof [H] that a concrete table is reachable by one call. *)
Ltac call_step H fuel now e p :=
  lazymatch type of H with
  | reachable ?s0 ?s =>
      let res := eval vm_compute in (identifyContact fuel now s e p) in
      lazymatch res with
      | Some (?s', ?r) =>
          let H' := fresh in
          assert (H' : reachable s0 s');
          [ apply reach_call with s fuel now e p r;
            [ exact H
            | let c := fresh in let Hc := fresh in
              intros c Hc; rows_cases Hc
            | vm_compute; reflexivity ]
          | clear H; rename H' into H ]
      end
  end.

(* ================================================================= *)
(** ** Further vocabulary *)

(** The chain of [c] runs into a cycle: it reaches a contact that reaches
    itself. *)
Definition runsIntoCycle (s : Store) (c : Contact) : Prop :=
  exists m,
    clos_refl_trans Contact (parentOf s) c m /\
    clos_trans Contact (parentOf s) m m.

(** A row that names itself as its parent. *)
Definition selfLinked : Store :=
  mkStore
    [ row 1 (Some "doc@hv.edu"%string) (Some "111"%string) (Some 1) secondary 5 ]
    2.

(** A row with something to match on: an email or a phone number that is
    neither null nor empty. *)
Definition hasContactInfo (c : Contact) : bool :=
  truthy (email c) || truthy (phoneNumber c).

(** The [POST /identify] handler over any [String.prototype.trim]: the
    handler reads nothing of it but the string it returns. *)
Section Handler.

Variable trimFn : string -> string.

Definition prepareWith (v : option string) : option string :=
  match v with
  | Some str => if truthy v then Some (trimFn str) else None
  | None => None
  end.

Definition handleWith (fuel : nat) (now : Z) (s : Store)
    (bodyEmail bodyPhone : option string)
    : option (option (Store * IdentifyResponse)) :=
  let emailStr := prepareWith bodyEmail in
  let phoneStr := prepareWith bodyPhone in
  if negb (truthy emailStr) && negb (truthy phoneStr) then None
  else Some (identifyContact fuel now s emailStr phoneStr).

End Handler.

(** How a call may rewrite a row [c] into [c'], given the id [can] of the
    primary it answers with: [linkPrecedence] moves only to secondary,
    [linkedId] is never cleared, and whatever changes comes with a link to
    [can]. *)
Definition relinkedOnlyTo (can : Z) (c c' : Contact) : Prop :=
  (linkPrecedence c = secondary -> linkPrecedence c' = secondary) /\
  (linkedId c <> None -> linkedId c' <> None) /\
  (linkedId c' = linkedId c \/ linkedId c' = Some can) /\
  (linkPrecedence c' = linkPrecedence c \/
   (linkPrecedence c' = secondary /\ linkedId c' = Some can)).

(** [c] is one of the primaries in [demoted], or a row linked to one. *)
Definition inMergedGroup (demoted : list Contact) (c : Contact) : Prop :=
  In (id c) (map id demoted) \/
  exists l, linkedId c = Some l /\ In l (map id demoted).

(** Every [linkedId] names a row of the table: the foreign key holds. *)
Definition linksResolve (s : Store) : Prop :=
  forall c l, In c (rows s) -> linkedId c = Some l -> In l (map id (rows s)).
(* ================================================================= *)
(** * Properties *)

(** ** The store operations *)

Lemma findUnique_In s i c : findUnique s i = Some c -> In c (rows s).
Proof.
  unfold findUnique. intros H. apply find_some in H. tauto.
Qed.

Lemma findUnique_id s i c : findUnique s i = Some c -> id c = i.
Proof.
  unfold findUnique. intros H. apply find_some in H.
  destruct H as [_ H]. now apply Z.eqb_eq.
Qed.

Lemma findUnique_of_In s c : In c (rows s) -> findUnique s (id c) <> None.
Proof.
  unfold findUnique. intros Hin Hnone.
  pose proof (find_none _ _ Hnone c Hin) as H. cbv beta in H.
  rewrite Z.eqb_refl in H. discriminate.
Qed.

(** ** Root resolution ends on every acyclic table *)

Section Chains.

Variable s : Store.
Hypothesis Hacyclic : acyclic s.

Lemma parent_not_seen seen c p :
  (forall x, In x seen -> clos_refl_trans Contact (parentOf s) x c) ->
  parentOf s c p -> ~ In p seen.
Proof.
  intros Hseen Hstep Hin.
  apply (Hacyclic p).
  apply clos_rt_t with c.
  - now apply Hseen.
  - now apply t_step.
Qed.

Lemma findPrimaryContact_bounded fuel :
  forall seen c,
    NoDup seen ->
    incl seen (rows s) ->
    (forall x, In x seen -> clos_refl_trans Contact (parentOf s) x c) ->
    (length (rows s) <= fuel + length seen)%nat ->
    exists r,
      findPrimaryContact fuel s c = Some r /\
      clos_refl_trans Contact (parentOf s) c r /\
      chainEnd s r.
Proof.
  induction fuel as [| fuel IH]; intros seen c Hnd Hincl Hseen Hlen.
  - cbn [findPrimaryContact].
    destruct (linkedId c) as [l |] eqn:Hl.
    + destruct (findUnique s l) as [p |] eqn:Hp.
      * exfalso.
        assert (Hstep : parentOf s c p) by (exists l; auto).
        pose proof (parent_not_seen _ _ _ Hseen Hstep) as Hnot.
        assert (Hnd' : NoDup (p :: seen)) by (constructor; assumption).
        assert (Hincl' : incl (p :: seen) (rows s)).
        { intros x [<- | Hx]; [eapply findUnique_In; eauto | auto]. }
        pose proof (NoDup_incl_length Hnd' Hincl') as Hle.
        cbn [length] in Hle. lia.
      * exists c. repeat split; [apply rt_refl |].
        right. exists l. auto.
    + exists c. repeat split; [apply rt_refl |]. now left.
  - cbn [findPrimaryContact].
    destruct (linkedId c) as [l |] eqn:Hl.
    + destruct (findUnique s l) as [p |] eqn:Hp.
      * assert (Hstep : parentOf s c p) by (exists l; auto).
        pose proof (parent_not_seen _ _ _ Hseen Hstep) as Hnot.
        destruct (IH (p :: seen) p) as (r & Hr & Hpath & Hend).
        -- constructor; assumption.
        -- intros x [<- | Hx]; [eapply findUnique_In; eauto | auto].
        -- intros x [<- | Hx]; [apply rt_refl |].
           apply rt_trans with c; [now apply Hseen | now apply rt_step].
        -- cbn [length]. lia.
        -- exists r. repeat split; auto.
           apply rt_trans with p; [now apply rt_step | assumption].
      * exists c. repeat split; [apply rt_refl |].
        right. exists l. auto.
    + exists c. repeat split; [apply rt_refl |]. now left.
Qed.

End Chains.

(** ** What the writes leave alone *)

Lemma sameData_refl c : sameData c c.
Proof. repeat split. Qed.

Lemma sameData_trans a b c : sameData a b -> sameData b c -> sameData a c.
Proof.
  unfold sameData. intros (?&?&?&?&?&?) (?&?&?&?&?&?).
  repeat split; congruence.
Qed.

Lemma sameData_relinkRow can o c : sameData c (relinkRow can o c).
Proof.
  unfold relinkRow, reparentRow, demoteRow.
  destruct (id c =? o); cbn;
    match goal with |- context [if ?b then _ else _] => destruct b end;
    repeat split.
Qed.

Lemma Forall2_sameData_map f l :
  (forall c, sameData c (f c)) -> Forall2 sameData l (map f l).
Proof.
  intros Hf. induction l as [| c l IH]; cbn; constructor; auto.
Qed.

Lemma Forall2_sameData_trans l1 l2 l3 :
  Forall2 sameData l1 l2 -> Forall2 sameData l2 l3 -> Forall2 sameData l1 l3.
Proof.
  intros H12. revert l3.
  induction H12 as [| a b l1 l2 Hab _ IH]; intros l3 H23.
  - inversion H23. constructor.
  - inversion H23 as [| b' c l2' l3' Hbc Hrest]; subst.
    constructor; [eapply sameData_trans; eauto | auto].
Qed.

Lemma Forall2_sameData_refl l : Forall2 sameData l l.
Proof.
  induction l; constructor; auto using sameData_refl.
Qed.

(** One turn of the merge loop, row by row. *)
Lemma demote_rows can o s s' :
  demote can o s = Some s' ->
  s' = mkStore (map (relinkRow (id can) (id o)) (rows s)) (nextId s).
Proof.
  unfold demote, update, updateMany, bind.
  destruct (findUnique s (id o)); [| discriminate].
  cbn. intros [= <-]. f_equal.
  rewrite map_map. reflexivity.
Qed.

Lemma demote_defined can o s :
  findUnique s (id o) <> None -> demote can o s <> None.
Proof.
  unfold demote, update, bind.
  destruct (findUnique s (id o)); [discriminate | congruence].
Qed.

Lemma mergeLoop_frame can others :
  forall s s',
    mergeLoop can others s = Some s' ->
    Forall2 sameData (rows s) (rows s') /\ nextId s' = nextId s.
Proof.
  induction others as [| o rest IH]; intros s s' H; cbn in H.
  - injection H as <-. split; [apply Forall2_sameData_refl | reflexivity].
  - destruct (demote can o s) as [s1 |] eqn:Hd; [| discriminate].
    cbn in H. apply IH in H. destruct H as [Hrows Hnext].
    apply demote_rows in Hd. subst s1. cbn in *.
    split; [| assumption].
    eapply Forall2_sameData_trans; [| exact Hrows].
    apply Forall2_sameData_map. apply sameData_relinkRow.
Qed.

(** The two ways a call of [identifyContact] ends. *)
Lemma identifyContact_cases fuel now s e p s' r :
  identifyContact fuel now s e p = Some (s', r) ->
  (matchingContacts s e p = [] /\
   s' = mkStore (rows s ++ [newRow s now e p None primary]) (nextId s + 1) /\
   r = buildResponse s' (newRow s now e p None primary))
  \/
  (exists can others s1,
     matchingContacts s e p <> [] /\
     resolvePrimaries fuel s (matchingContacts s e p) = Some (can :: others) /\
     mergeLoop can others s = Some s1 /\
     s' = (if hasNewInformation s1 can e p
           then mkStore (rows s1 ++ [newRow s1 now e p (Some (id can)) secondary])
                        (nextId s1 + 1)
           else s1) /\
     r = buildResponse s' can).
Proof.
  unfold identifyContact.
  destruct (matchingContacts s e p) as [| m ms] eqn:Hm.
  - cbn. intros [= <- <-]. left. auto.
  - intros H. right.
    destruct (resolvePrimaries fuel s (m :: ms)) as [[| can others] |] eqn:Hp;
      cbn in H; try discriminate.
    destruct (mergeLoop can others s) as [s1 |] eqn:Hmerge;
      cbn in H; [| discriminate].
    injection H as <- <-.
    exists can, others, s1.
    repeat split; auto; try discriminate.
Qed.

Lemma split_at_length (kept added old : list Contact) :
  length old = length kept ->
  firstn (length old) (kept ++ added) = kept /\
  skipn (length old) (kept ++ added) = added.
Proof.
  intros ->. split.
  - rewrite firstn_app, Nat.sub_diag, firstn_all. cbn. apply app_nil_r.
  - rewrite skipn_app, Nat.sub_diag, skipn_all. reflexivity.
Qed.

(** The table after a call: the old rows, rewritten at most in their link
    fields, followed by what the call inserted. *)
Lemma identifyContact_rows fuel now s e p s' r :
  identifyContact fuel now s e p = Some (s', r) ->
  Forall2 sameData (rows s) (keptRows s s') /\
  rows s' = keptRows s s' ++ insertedRows s s' /\
  ((matchingContacts s e p = [] /\
    insertedRows s s' = [newRow s now e p None primary])
   \/
   (exists can others s1,
      matchingContacts s e p <> [] /\
      resolvePrimaries fuel s (matchingContacts s e p) = Some (can :: others) /\
      mergeLoop can others s = Some s1 /\
      keptRows s s' = rows s1 /\
      insertedRows s s' =
        if hasNewInformation s1 can e p
        then [newRow s1 now e p (Some (id can)) secondary]
        else [])).
Proof.
  intros H. unfold keptRows, insertedRows.
  split; [| split; [symmetry; apply firstn_skipn |]].
  - apply identifyContact_cases in H.
    destruct H as [(_ & -> & _) | (can & others & s1 & _ & _ & Hm & -> & _)].
    + cbn [rows].
      destruct (split_at_length (rows s) [newRow s now e p None primary]
                  (rows s) eq_refl) as [-> _].
      apply Forall2_sameData_refl.
    + apply mergeLoop_frame in Hm. destruct Hm as [Hrows _].
      pose proof (Forall2_length Hrows) as Hlen.
      destruct (hasNewInformation s1 can e p).
      * cbn [rows].
        destruct (split_at_length (rows s1)
                    [newRow s1 now e p (Some (id can)) secondary]
                    (rows s) Hlen) as [-> _].
        assumption.
      * rewrite Hlen, firstn_all. assumption.
  - apply identifyContact_cases in H.
    destruct H as [(Hno & -> & _) | (can & others & s1 & Hsome & Hp & Hm & -> & _)].
    + left. split; [assumption |]. cbn [rows].
      now destruct (split_at_length (rows s) [newRow s now e p None primary]
                      (rows s) eq_refl) as [_ ->].
    + right. exists can, others, s1.
      repeat split; try assumption.
      * pose proof (mergeLoop_frame _ _ _ _ Hm) as [Hrows _].
        pose proof (Forall2_length Hrows) as Hlen.
        destruct (hasNewInformation s1 can e p).
        -- cbn [rows].
           now destruct (split_at_length (rows s1)
                           [newRow s1 now e p (Some (id can)) secondary]
                           (rows s) Hlen) as [-> _].
        -- rewrite Hlen. apply firstn_all.
      * pose proof (mergeLoop_frame _ _ _ _ Hm) as [Hrows _].
        pose proof (Forall2_length Hrows) as Hlen.
        destruct (hasNewInformation s1 can e p).
        -- cbn [rows].
           now destruct (split_at_length (rows s1)
                           [newRow s1 now e p (Some (id can)) secondary]
                           (rows s) Hlen) as [_ ->].
        -- rewrite Hlen. apply skipn_all.
Qed.

(** ** Sorting by creation time *)

Lemma insertByCreatedAt_perm x l : Permutation (insertByCreatedAt x l) (x :: l).
Proof.
  induction l as [| y l IH]; cbn.
  - apply Permutation_refl.
  - destruct (createdAt x <=? createdAt y).
    + apply Permutation_refl.
    + eapply perm_trans; [apply perm_skip; exact IH | apply perm_swap].
Qed.

Lemma sortByCreatedAt_perm l : Permutation (sortByCreatedAt l) l.
Proof.
  induction l as [| x l IH]; cbn.
  - apply perm_nil.
  - eapply perm_trans; [apply insertByCreatedAt_perm | now apply perm_skip].
Qed.

Lemma sortByCreatedAt_In l x : In x (sortByCreatedAt l) <-> In x l.
Proof.
  split; apply Permutation_in;
    [| apply Permutation_sym]; apply sortByCreatedAt_perm.
Qed.

Lemma sortByCreatedAt_length l : length (sortByCreatedAt l) = length l.
Proof. apply Permutation_length, sortByCreatedAt_perm. Qed.

Lemma sortByCreatedAt_nil l : sortByCreatedAt l = [] -> l = [].
Proof.
  intros H. pose proof (sortByCreatedAt_length l) as Hlen.
  rewrite H in Hlen. destruct l; [reflexivity | discriminate].
Qed.

Lemma insertByCreatedAt_sorted x l :
  StronglySorted notAfter l -> StronglySorted notAfter (insertByCreatedAt x l).
Proof.
  induction 1 as [| y l Hs IH Hall]; cbn.
  - repeat constructor.
  - destruct (createdAt x <=? createdAt y) eqn:Hxy.
    + apply Z.leb_le in Hxy.
      constructor; [constructor; assumption |].
      constructor; [exact Hxy |].
      eapply Forall_impl; [| exact Hall].
      unfold notAfter. intros; lia.
    + apply Z.leb_gt in Hxy.
      constructor; [assumption |].
      rewrite Forall_forall. intros z Hz.
      apply (Permutation_in _ (insertByCreatedAt_perm x l)) in Hz.
      destruct Hz as [<- | Hz].
      * unfold notAfter. lia.
      * rewrite Forall_forall in Hall. auto.
Qed.

Lemma sortByCreatedAt_sorted l : StronglySorted notAfter (sortByCreatedAt l).
Proof.
  induction l as [| x l IH]; cbn.
  - constructor.
  - now apply insertByCreatedAt_sorted.
Qed.

(** The head of the sorted list is the first of the earliest entries of the
    list that was sorted: the sort is stable. *)
Lemma sortByCreatedAt_head l h t :
  sortByCreatedAt l = h :: t ->
  exists before after,
    l = before ++ h :: after /\
    (forall x, In x before -> createdAt h < createdAt x) /\
    (forall x, In x after -> createdAt h <= createdAt x).
Proof.
  revert h t. induction l as [| a l IH]; intros h t H; [discriminate |].
  change (sortByCreatedAt (a :: l))
    with (insertByCreatedAt a (sortByCreatedAt l)) in H.
  destruct (sortByCreatedAt l) as [| h' t'] eqn:Hs.
  - apply sortByCreatedAt_nil in Hs. subst l. cbn in H.
    injection H as <- <-. exists [], []. cbn. repeat split; tauto.
  - destruct (IH h' t' eq_refl) as (l1 & l2 & -> & Hb & Ha).
    cbn in H. destruct (createdAt a <=? createdAt h') eqn:Hcmp.
    + apply Z.leb_le in Hcmp. injection H as <- <-.
      exists [], (l1 ++ h' :: l2). cbn. repeat split; [tauto |].
      intros x Hx. apply in_app_or in Hx.
      destruct Hx as [Hx | [<- | Hx]].
      * specialize (Hb x Hx). lia.
      * assumption.
      * specialize (Ha x Hx). lia.
    + apply Z.leb_gt in Hcmp. injection H as <- <-.
      exists (a :: l1), l2. cbn. repeat split; [| assumption].
      intros x [<- | Hx]; [lia | auto].
Qed.

(** ** [primarySet] *)

Lemma mapSet_In k v m kv : In kv (mapSet k v m) -> kv = (k, v) \/ In kv m.
Proof.
  induction m as [| [k' v'] m IH]; cbn.
  - intros [<- | []]. now left.
  - destruct (k' =? k).
    + intros [<- | H]; [now left | right; now right].
    + intros [<- | H]; [right; now left |].
      destruct (IH H); [now left | right; now right].
Qed.

Lemma mapSet_keys k v m k' :
  In k' (map fst (mapSet k v m)) <-> k' = k \/ In k' (map fst m).
Proof.
  induction m as [| [k0 v0] m IH]; cbn.
  - intuition.
  - destruct (k0 =? k) eqn:Hk; cbn.
    + apply Z.eqb_eq in Hk. subst k0. intuition.
    + rewrite IH. intuition.
Qed.

Lemma mapSet_NoDup k v m :
  NoDup (map fst m) -> NoDup (map fst (mapSet k v m)).
Proof.
  induction m as [| [k0 v0] m IH]; cbn; intros Hnd.
  - repeat constructor. intros [].
  - inversion Hnd as [| ? ? Hnotin Hnd']; subst.
    destruct (k0 =? k) eqn:Hk; cbn.
    + apply Z.eqb_eq in Hk. subst k0. now constructor.
    + apply Z.eqb_neq in Hk. constructor; [| auto].
      rewrite mapSet_keys. intros [-> | Hin]; [now apply Hk | auto].
Qed.

Lemma mapSet_not_nil k v m : mapSet k v m <> [].
Proof.
  destruct m as [| [k0 v0] m]; cbn; [discriminate |].
  destruct (k0 =? k); discriminate.
Qed.

(** ** Root resolution, whatever the table *)

Lemma findPrimaryContact_sound fuel s :
  forall c r,
    findPrimaryContact fuel s c = Some r ->
    clos_refl_trans Contact (parentOf s) c r /\ chainEnd s r.
Proof.
  induction fuel as [| fuel IH]; intros c r; cbn [findPrimaryContact];
    destruct (linkedId c) as [l |] eqn:Hl;
    try (intros [= <-]; split; [apply rt_refl | now left]);
    destruct (findUnique s l) as [p |] eqn:Hp;
    try (intros [= <-]; split; [apply rt_refl | right; exists l; auto]).
  - discriminate.
  - intros H. apply IH in H. destruct H as [Hpath Hend].
    split; [| assumption].
    apply rt_trans with p; [| assumption].
    apply rt_step. exists l. auto.
Qed.

Lemma reachable_in_rows s c r :
  clos_refl_trans Contact (parentOf s) c r -> In c (rows s) -> In r (rows s).
Proof.
  induction 1 as [c p (l & _ & Hp) | c | c m r _ IH1 _ IH2]; intros Hin.
  - eapply findUnique_In; eauto.
  - assumption.
  - auto.
Qed.

(** Every entry the loop adds to [primarySet] is the end of the chain of a
    matched contact, filed under its own id. *)
Lemma resolveLoop_entries fuel s :
  forall cs acc ps,
    resolveLoop fuel s cs acc = Some ps ->
    forall k v, In (k, v) ps ->
      In (k, v) acc \/
      (k = id v /\ exists c, In c cs /\ findPrimaryContact fuel s c = Some v).
Proof.
  induction cs as [| c cs IH]; intros acc ps H k v Hin; cbn in H.
  - injection H as <-. now left.
  - destruct (findPrimaryContact fuel s c) as [r |] eqn:Hr; [| discriminate].
    cbn in H. destruct (IH _ _ H k v Hin) as [Hacc | (Hk & c' & Hc' & Hf)].
    + apply mapSet_In in Hacc. destruct Hacc as [[= -> ->] | Hacc].
      * right. split; [reflexivity |]. exists c. split; [now left | assumption].
      * now left.
    + right. split; [assumption |]. exists c'. split; [now right | assumption].
Qed.

Lemma resolveLoop_keys_kept fuel s :
  forall cs acc ps,
    resolveLoop fuel s cs acc = Some ps ->
    forall k, In k (map fst acc) -> In k (map fst ps).
Proof.
  induction cs as [| c cs IH]; intros acc ps H k Hin; cbn in H.
  - now injection H as <-.
  - destruct (findPrimaryContact fuel s c) as [r |]; [| discriminate].
    cbn in H. apply (IH _ _ H). apply mapSet_keys. now right.
Qed.

(** Every matched contact's root is in [primarySet], by id. *)
Lemma resolveLoop_covers fuel s :
  forall cs acc ps,
    resolveLoop fuel s cs acc = Some ps ->
    forall c r, In c cs -> findPrimaryContact fuel s c = Some r ->
      In (id r) (map fst ps).
Proof.
  induction cs as [| c0 cs IH]; intros acc ps H c r Hin Hr; cbn in H.
  - destruct Hin.
  - destruct (findPrimaryContact fuel s c0) as [r0 |] eqn:Hr0; [| discriminate].
    cbn in H. destruct Hin as [-> | Hin].
    + rewrite Hr in Hr0. injection Hr0 as <-.
      apply (resolveLoop_keys_kept _ _ _ _ _ H). apply mapSet_keys. now left.
    + eapply IH; eauto.
Qed.

Lemma resolveLoop_NoDup fuel s :
  forall cs acc ps,
    resolveLoop fuel s cs acc = Some ps ->
    NoDup (map fst acc) -> NoDup (map fst ps).
Proof.
  induction cs as [| c cs IH]; intros acc ps H Hnd; cbn in H.
  - now injection H as <-.
  - destruct (findPrimaryContact fuel s c) as [r |]; [| discriminate].
    cbn in H. apply (IH _ _ H). now apply mapSet_NoDup.
Qed.

Lemma resolveLoop_not_nil fuel s :
  forall cs acc ps,
    resolveLoop fuel s cs acc = Some ps -> (cs <> [] \/ acc <> []) -> ps <> [].
Proof.
  induction cs as [| c cs IH]; intros acc ps H Hne; cbn in H.
  - injection H as <-. destruct Hne as [Hne | Hne]; [now elim Hne | assumption].
  - destruct (findPrimaryContact fuel s c) as [r |]; [| discriminate].
    cbn in H. apply (IH _ _ H). right. apply mapSet_not_nil.
Qed.

Lemma resolveLoop_defined fuel s :
  forall cs acc,
    (forall c, In c cs -> findPrimaryContact fuel s c <> None) ->
    resolveLoop fuel s cs acc <> None.
Proof.
  induction cs as [| c cs IH]; intros acc Hall; cbn.
  - discriminate.
  - destruct (findPrimaryContact fuel s c) as [r |] eqn:Hr.
    + cbn. apply IH. intros c' Hc'. apply Hall. now right.
    + elim (Hall c); [now left | assumption].
Qed.

Lemma findMany_In s w ob c :
  In c (findMany s w ob) <-> In c (rows s) /\ selects w c = true.
Proof.
  unfold findMany. destruct ob.
  - rewrite sortByCreatedAt_In. apply filter_In.
  - apply filter_In.
Qed.

Lemma matchingContacts_In s e p c :
  In c (matchingContacts s e p) -> In c (rows s).
Proof.
  unfold matchingContacts. rewrite findMany_In. tauto.
Qed.

Lemma keys_are_ids (ps : list (Z * Contact)) :
  (forall k v, In (k, v) ps -> k = id v) -> map fst ps = map id (map snd ps).
Proof.
  induction ps as [| [k v] ps IH]; cbn; intros H.
  - reflexivity.
  - f_equal.
    + apply H. now left.
    + apply IH. intros k' v' Hin. apply H. now right.
Qed.

(** [primaries]: distinct ids, each the chain end of a matched contact,
    every matched contact's chain end among them, sorted by creation time. *)
Lemma resolvePrimaries_spec fuel s cs ps :
  (forall c, In c cs -> In c (rows s)) ->
  resolvePrimaries fuel s cs = Some ps ->
  NoDup (map id ps) /\
  (forall v, In v ps ->
     In v (rows s) /\ chainEnd s v /\
     exists c, In c cs /\ findPrimaryContact fuel s c = Some v) /\
  (forall c r, In c cs -> findPrimaryContact fuel s c = Some r ->
     In (id r) (map id ps)) /\
  StronglySorted notAfter ps /\
  (cs <> [] -> ps <> []).
Proof.
  intros Hrows. unfold resolvePrimaries.
  destruct (resolveLoop fuel s cs []) as [m |] eqn:Hm; [| discriminate].
  cbn. intros [= <-].
  assert (Hent : forall k v, In (k, v) m ->
            k = id v /\ exists c, In c cs /\ findPrimaryContact fuel s c = Some v).
  { intros k v Hin.
    destruct (resolveLoop_entries _ _ _ _ _ Hm k v Hin) as [[] | H]. exact H. }
  assert (Hkeys : map fst m = map id (map snd m)).
  { apply keys_are_ids. intros k v Hin. now apply Hent. }
  assert (Hperm : Permutation (map id (sortByCreatedAt (map snd m)))
                              (map fst m)).
  { rewrite Hkeys. apply Permutation_map, sortByCreatedAt_perm. }
  repeat split.
  - eapply Permutation_NoDup; [apply Permutation_sym; exact Hperm |].
    apply (resolveLoop_NoDup _ _ _ _ _ Hm). constructor.
  - apply -> sortByCreatedAt_In in H. apply in_map_iff in H.
    destruct H as ([k v'] & <- & Hin). cbn.
    destruct (Hent _ _ Hin) as (_ & c & Hc & Hf).
    apply findPrimaryContact_sound in Hf. destruct Hf as [Hpath _].
    eapply reachable_in_rows; eauto.
  - apply -> sortByCreatedAt_In in H. apply in_map_iff in H.
    destruct H as ([k v'] & <- & Hin). cbn.
    destruct (Hent _ _ Hin) as (_ & c & Hc & Hf).
    now apply findPrimaryContact_sound in Hf.
  - apply -> sortByCreatedAt_In in H. apply in_map_iff in H.
    destruct H as ([k v'] & <- & Hin). cbn.
    destruct (Hent _ _ Hin) as (_ & c & Hc & Hf). eauto.
  - intros c r Hc Hr.
    eapply Permutation_in; [apply Permutation_sym; exact Hperm |].
    eapply resolveLoop_covers; eauto.
  - apply sortByCreatedAt_sorted.
  - intros Hne Hnil. apply sortByCreatedAt_nil in Hnil.
    apply map_eq_nil in Hnil.
    eapply resolveLoop_not_nil; eauto.
Qed.

Lemma resolvePrimaries_defined fuel s cs :
  (forall c, In c cs -> findPrimaryContact fuel s c <> None) ->
  resolvePrimaries fuel s cs <> None.
Proof.
  intros H. unfold resolvePrimaries.
  pose proof (resolveLoop_defined fuel s cs [] H) as Hd.
  destruct (resolveLoop fuel s cs []); [discriminate | congruence].
Qed.

(** ** The merge loop never misses the row it updates *)

Lemma findUnique_defined_iff s i :
  findUnique s i <> None <-> In i (map id (rows s)).
Proof.
  split.
  - destruct (findUnique s i) as [c |] eqn:H; [intros _ | congruence].
    apply in_map_iff. exists c.
    split; [eapply findUnique_id | eapply findUnique_In]; eauto.
  - intros Hin. apply in_map_iff in Hin. destruct Hin as (c & <- & Hc).
    now apply findUnique_of_In.
Qed.

Lemma relinkRow_id can o c : id (relinkRow can o c) = id c.
Proof. now destruct (sameData_relinkRow can o c) as [-> _]. Qed.

Lemma demote_ids can o s s' :
  demote can o s = Some s' -> map id (rows s') = map id (rows s).
Proof.
  intros H. apply demote_rows in H. subst s'. cbn.
  rewrite map_map. apply map_ext. intros c. apply relinkRow_id.
Qed.

Lemma mergeLoop_defined can others :
  forall s,
    (forall o, In o others -> In (id o) (map id (rows s))) ->
    mergeLoop can others s <> None.
Proof.
  induction others as [| o rest IH]; intros s Hall; cbn.
  - discriminate.
  - destruct (demote can o s) as [s1 |] eqn:Hd.
    + cbn. apply IH. intros o' Ho'.
      rewrite (demote_ids _ _ _ _ Hd). apply Hall. now right.
    + exfalso. revert Hd. apply demote_defined.
      apply findUnique_defined_iff. apply Hall. now left.
Qed.

(** A call returns as soon as every chain walk it may start ends within
    [fuel]. *)
Lemma identifyContact_defined_if fuel now s e p :
  (forall c, In c (rows s) -> findPrimaryContact fuel s c <> None) ->
  exists s' r, identifyContact fuel now s e p = Some (s', r).
Proof.
  intros Hres. unfold identifyContact.
  destruct (matchingContacts s e p) as [| m ms] eqn:Hm.
  - cbn. eauto.
  - assert (Hin : forall c, In c (m :: ms) -> In c (rows s)).
    { intros c Hc. rewrite <- Hm in Hc. eapply matchingContacts_In; eauto. }
    assert (Hdef : resolvePrimaries fuel s (m :: ms) <> None).
    { apply resolvePrimaries_defined. intros c Hc. apply Hres. now apply Hin. }
    destruct (resolvePrimaries fuel s (m :: ms)) as [ps |] eqn:Hps;
      [| congruence].
    destruct (resolvePrimaries_spec _ _ _ _ Hin Hps)
      as (_ & Hmem & _ & _ & Hne).
    destruct ps as [| can others]; [now elim Hne |].
    cbn.
    assert (Hmerge : mergeLoop can others s <> None).
    { apply mergeLoop_defined. intros o Ho. apply in_map.
      apply Hmem. now right. }
    destruct (mergeLoop can others s) as [s1 |]; [| congruence].
    cbn. eauto.
Qed.

(** On an acyclic table, with fuel for a walk through every row, a call of
    [identifyContact] returns. *)
Lemma identifyContact_defined fuel now s e p :
  acyclic s -> (length (rows s) <= fuel)%nat ->
  exists s' r, identifyContact fuel now s e p = Some (s', r).
Proof.
  intros Hacyc Hfuel. apply identifyContact_defined_if. intros c _.
  destruct (findPrimaryContact_bounded s Hacyc fuel [] c) as (r & -> & _).
  - constructor.
  - intros x [].
  - intros x [].
  - cbn. lia.
  - discriminate.
Qed.

(** ** A check for acyclic tables *)

Lemma path_target_in_rows s a b :
  clos_trans Contact (parentOf s) a b -> In b (rows s).
Proof.
  induction 1 as [a b (l & _ & Hb) | a m b _ _ _ IH].
  - eapply findUnique_In; eauto.
  - assumption.
Qed.

Lemma linksGoDown_step s c p :
  linksGoDown s = true -> In c (rows s) -> parentOf s c p -> id p < id c.
Proof.
  unfold linksGoDown. rewrite forallb_forall.
  intros Hall Hin (l & Hl & Hp).
  specialize (Hall c Hin). cbv beta in Hall. rewrite Hl in Hall.
  apply Z.ltb_lt in Hall. apply findUnique_id in Hp. lia.
Qed.

Lemma linksGoDown_path s :
  linksGoDown s = true ->
  forall c r, clos_trans Contact (parentOf s) c r ->
    In c (rows s) -> id r < id c.
Proof.
  intros Hdown c r Hpath.
  induction Hpath as [c r Hstep | c m r H1 IH1 H2 IH2]; intros Hin.
  - eapply linksGoDown_step; eauto.
  - specialize (IH1 Hin).
    specialize (IH2 (path_target_in_rows _ _ _ H1)). lia.
Qed.

Lemma linksGoDown_acyclic s : linksGoDown s = true -> acyclic s.
Proof.
  intros Hdown c Hcycle.
  pose proof (linksGoDown_path s Hdown c c Hcycle
                (path_target_in_rows _ _ _ Hcycle)).
  lia.
Qed.

Lemma filter_none {A : Type} (f : A -> bool) (l : list A) :
  (forall x, In x l -> f x = false) -> filter f l = [].
Proof.
  induction l as [| x l IH]; cbn; intros H.
  - reflexivity.
  - rewrite (H x (or_introl eq_refl)). apply IH. intros y Hy. apply H. now right.
Qed.

Lemma optStringIs_true x v : optStringIs x v = true <-> v = Some x.
Proof.
  destruct v as [y |]; cbn.
  - rewrite String.eqb_eq. split; congruence.
  - split; discriminate.
Qed.

Lemma optZIs_true x v : optZIs x v = true <-> v = Some x.
Proof.
  destruct v as [y |]; cbn.
  - rewrite Z.eqb_eq. split; congruence.
  - split; discriminate.
Qed.

(** A request that no row matches selects nothing. *)
Lemma matchingContacts_unknown s e p :
  unknownTo s e p -> matchingContacts s e p = [].
Proof.
  intros Hun. unfold matchingContacts, findMany.
  rewrite filter_none; [reflexivity |].
  intros c Hc. destruct (Hun c Hc) as [He Hp].
  cbn [selects]. unfold conditions.
  destruct (existsb _ _) eqn:Hex; [| reflexivity].
  apply existsb_exists in Hex. destruct Hex as (k & Hk & Hsat).
  apply in_app_or in Hk. exfalso.
  destruct Hk as [Hk | Hk].
  - destruct e as [v |]; [| destruct Hk].
    destruct (truthy (Some v)); [| destruct Hk].
    destruct Hk as [<- | []]. cbn in Hsat.
    apply optStringIs_true in Hsat. apply He; [discriminate | assumption].
  - destruct p as [v |]; [| destruct Hk].
    destruct (truthy (Some v)); [| destruct Hk].
    destruct Hk as [<- | []]. cbn in Hsat.
    apply optStringIs_true in Hsat. apply Hp; [discriminate | assumption].
Qed.

(* ================================================================= *)
(** ** No match: one new primary *)

(** C7. On a table where no row has the given email and no row has the
    given phone number, [identifyContact] returns, the table it leaves is
    the old one followed by exactly one new row, that row is a primary with
    no [linkedId] that stores the given email and phone number, and the
    response is the view of that row alone: its id, its own truthy values,
    and no secondary id.  The table is one whose links only name ids that
    were already handed out. *)
Theorem identifyContact_no_match fuel now s e p :
  unknownTo s e p ->
  linksAssigned s ->
  exists n,
    identifyContact fuel now s e p =
      Some (mkStore (rows s ++ [n]) (nextId s + 1),
            mkResponse (id n) (pushIfTruthy e []) (pushIfTruthy p []) []) /\
    n = newRow s now e p None primary /\
    linkPrecedence n = primary /\
    linkedId n = None /\
    email n = e /\
    phoneNumber n = p.
Proof.
  intros Hun Hlinks.
  exists (newRow s now e p None primary).
  repeat split.
  unfold identifyContact.
  rewrite (matchingContacts_unknown s e p Hun).
  cbn [create]. unfold buildResponse, findMany. cbn [rows].
  rewrite filter_none.
  - reflexivity.
  - intros c Hc. cbn [selects satisfies id]. apply in_app_or in Hc.
    destruct Hc as [Hc | [<- | []]]; [| reflexivity].
    destruct (optZIs (nextId s) (linkedId c)) eqn:Hl; [| reflexivity].
    apply optZIs_true in Hl. specialize (Hlinks c _ Hc Hl). cbn in Hlinks. lia.
Qed.

Lemma identifyContact_no_match_witness :
  exists n,
    identifyContact 0 9 twoGroups (Some "jen@hv.edu"%string) None =
      Some (mkStore (rows twoGroups ++ [n]) 6,
            mkResponse 5 ["jen@hv.edu"%string] [] []) /\
    linkPrecedence n = primary /\ linkedId n = None.
Proof.
  destruct (identifyContact_no_match 0 9 twoGroups
              (Some "jen@hv.edu"%string) None)
    as (n & Hrun & Hn & Hprim & Hlink & _).
  - intros c Hc. cbn in Hc.
    repeat (destruct Hc as [<- | Hc]; [split; [discriminate | congruence] |]).
    destruct Hc.
  - intros c l Hc. cbn in Hc.
    repeat (destruct Hc as [<- | Hc]; [cbn; intros [= <-]; lia || discriminate |]).
    destruct Hc.
  - exists n. subst n. split; [exact Hrun | split; reflexivity].
Defined.

(* ================================================================= *)
(** ** Root resolution ends *)

(** C8. On a table whose link chains are acyclic, [findPrimaryContact]
    returns for every contact once it has fuel for a walk through every
    row; the contact it returns is reached from the given one by following
    [linkedId], and it either has no [linkedId] or has one that names no row
    of the table.  Reconciliation goes on from there: for every request that
    matches the contact, the returned contact's id is among the resolved
    primaries and [identifyContact] returns a result. *)
Theorem findPrimaryContact_terminates fuel s c :
  acyclic s ->
  (length (rows s) <= fuel)%nat ->
  exists r,
    findPrimaryContact fuel s c = Some r /\
    clos_refl_trans Contact (parentOf s) c r /\
    chainEnd s r /\
    (forall now e p,
       In c (matchingContacts s e p) ->
       exists ps s' resp,
         resolvePrimaries fuel s (matchingContacts s e p) = Some ps /\
         In (id r) (map id ps) /\
         identifyContact fuel now s e p = Some (s', resp)).
Proof.
  intros Hacyc Hfuel.
  destruct (findPrimaryContact_bounded s Hacyc fuel [] c)
    as (r & Hr & Hpath & Hend).
  - constructor.
  - intros x [].
  - intros x [].
  - cbn. lia.
  - exists r. repeat split; try assumption.
    intros now e p Hc.
    destruct (identifyContact_defined fuel now s e p Hacyc Hfuel)
      as (s' & resp & Hrun).
    destruct (identifyContact_cases _ _ _ _ _ _ _ Hrun)
      as [(Hnone & _) | (can & others & s1 & _ & Hps & _)].
    + rewrite Hnone in Hc. destruct Hc.
    + exists (can :: others), s', resp.
      repeat split; try assumption.
      assert (Hin : forall x, In x (matchingContacts s e p) -> In x (rows s))
        by (intros x; apply matchingContacts_In).
      destruct (resolvePrimaries_spec _ _ _ _ Hin Hps) as (_ & _ & Hcov & _).
      eapply Hcov; eauto.
Qed.

Lemma findPrimaryContact_terminates_witness :
  exists r,
    findPrimaryContact 4 twoGroups
      (row 3 (Some "emmett@hv.edu"%string) (Some "222"%string)
           (Some 2) secondary 6) = Some r /\
    chainEnd twoGroups r.
Proof.
  destruct (findPrimaryContact_terminates 4 twoGroups
              (row 3 (Some "emmett@hv.edu"%string) (Some "222"%string)
                   (Some 2) secondary 6))
    as (r & Hr & _ & Hend & _).
  - apply linksGoDown_acyclic. reflexivity.
  - cbn. lia.
  - exists r. split; assumption.
Defined.

(* ================================================================= *)
(** ** What a call may write *)

(** C9. A call of [identifyContact] leaves every row the table had in its
    place with its [id], [email], [phoneNumber], [createdAt], [updatedAt] and
    [deletedAt] as they were: of a row that was there before the call, only
    [linkedId] and [linkPrecedence] can differ afterwards. *)
Theorem identifyContact_frame fuel now s e p s' r :
  identifyContact fuel now s e p = Some (s', r) ->
  Forall2 sameData (rows s) (keptRows s s').
Proof.
  intros H. now apply identifyContact_rows in H.
Qed.

Lemma identifyContact_frame_witness :
  exists s' r,
    identifyContact 4 8 twoGroups
      (Some "emmett@hv.edu"%string) (Some "333"%string) = Some (s', r) /\
    Forall2 sameData (rows twoGroups) (keptRows twoGroups s').
Proof.
  destruct (identifyContact 4 8 twoGroups
              (Some "emmett@hv.edu"%string) (Some "333"%string))
    as [[s' r] |] eqn:Hrun.
  - exists s', r. split; [reflexivity |].
    exact (identifyContact_frame 4 8 twoGroups _ _ s' r Hrun).
  - vm_compute in Hrun. discriminate.
Defined.

(** C10. A call of [identifyContact] inserts at most one row.  When no row
    matches the request it inserts exactly one, a primary.  When rows match
    it inserts exactly one, a secondary linked to the canonical primary, if
    the request brings a value the merged group does not have, and none
    otherwise. *)
Theorem identifyContact_inserts_at_most_one fuel now s e p s' r :
  identifyContact fuel now s e p = Some (s', r) ->
  (length (insertedRows s s') <= 1)%nat /\
  rows s' = keptRows s s' ++ insertedRows s s' /\
  length (keptRows s s') = length (rows s) /\
  (matchingContacts s e p = [] ->
   insertedRows s s' = [newRow s now e p None primary]) /\
  (matchingContacts s e p <> [] ->
   exists can others s1,
     resolvePrimaries fuel s (matchingContacts s e p) = Some (can :: others) /\
     mergeLoop can others s = Some s1 /\
     insertedRows s s' =
       if hasNewInformation s1 can e p
       then [newRow s1 now e p (Some (id can)) secondary]
       else []).
Proof.
  intros H. apply identifyContact_rows in H.
  destruct H as (Hkept & Hrows & Hcases).
  split; [| split; [assumption | split; [| split]]].
  - destruct Hcases as [(_ & ->) | (can & others & s1 & _ & _ & _ & _ & ->)].
    + cbn. lia.
    + destruct (hasNewInformation s1 can e p); cbn; lia.
  - symmetry. eapply Forall2_length; eauto.
  - intros Hnone.
    destruct Hcases as [(_ & ->) | (can & others & s1 & Hsome & _)].
    + reflexivity.
    + now elim Hsome.
  - intros Hsome.
    destruct Hcases as [(Hnone & _) | (can & others & s1 & _ & Hp & Hm & _ & Hins)].
    + now elim Hsome.
    + exists can, others, s1. auto.
Qed.

Lemma identifyContact_inserts_at_most_one_witness :
  exists s' r,
    identifyContact 4 8 twoGroups
      (Some "emmett@hv.edu"%string) (Some "999"%string) = Some (s', r) /\
    (length (insertedRows twoGroups s') <= 1)%nat.
Proof.
  destruct (identifyContact 4 8 twoGroups
              (Some "emmett@hv.edu"%string) (Some "999"%string))
    as [[s' r] |] eqn:Hrun.
  - exists s', r. split; [reflexivity |].
    exact (proj1 (identifyContact_inserts_at_most_one
                    4 8 twoGroups _ _ s' r Hrun)).
  - vm_compute in Hrun. discriminate.
Defined.

(* ================================================================= *)
(** ** The consolidated view *)

Lemma filter_comm {A : Type} (f g : A -> bool) l :
  filter f (filter g l) = filter g (filter f l).
Proof.
  induction l as [| x l IH]; cbn; [reflexivity |].
  destruct (f x) eqn:Hf, (g x) eqn:Hg; cbn; rewrite ?Hf, ?Hg, IH; reflexivity.
Qed.

Lemma filter_filter_same {A : Type} (f g : A -> bool) l :
  (forall x, f x = true -> g x = true) ->
  filter f (filter g l) = filter f l.
Proof.
  intros H. induction l as [| x l IH]; cbn; [reflexivity |].
  destruct (g x) eqn:Hg; cbn.
  - now rewrite IH.
  - destruct (f x) eqn:Hf; [| assumption].
    apply H in Hf. congruence.
Qed.

(** Filtering by a property of the value commutes with [keepFirst]. *)
Lemma keepFirst_filter (f : string -> bool) l :
  keepFirst (filter f l) = filter f (keepFirst l).
Proof.
  induction l as [| x l IH]; cbn; [reflexivity |].
  destruct (f x) eqn:Hf; cbn.
  - rewrite IH. f_equal. apply filter_comm.
  - rewrite IH. symmetry.
    rewrite filter_filter_same; [reflexivity |].
    intros y Hy. destruct (String.eqb y x) eqn:Hyx; [| reflexivity].
    apply String.eqb_eq in Hyx. congruence.
Qed.

Lemma includes_true x l : includes x l = true <-> In x l.
Proof.
  unfold includes. rewrite existsb_exists. split.
  - intros (y & Hy & Hxy). apply String.eqb_eq in Hxy. now subst.
  - intros H. exists x. split; [assumption | apply String.eqb_refl].
Qed.

Lemma includes_app x l y :
  includes x (l ++ [y]) = includes x l || String.eqb x y.
Proof.
  unfold includes. rewrite existsb_app. cbn. now rewrite orb_false_r.
Qed.

Lemma filter_both {A : Type} (f g : A -> bool) l :
  filter f (filter g l) = filter (fun x => f x && g x) l.
Proof.
  induction l as [| x l IH]; cbn; [reflexivity |].
  destruct (g x) eqn:Hg; cbn; rewrite ?andb_true_r, ?andb_false_r.
  - destruct (f x); now rewrite IH.
  - assumption.
Qed.

(** The push loop over a list of values is [keepFirst] on what the
    accumulator does not hold yet. *)
Lemma push_loop_keepFirst (vs : list string) :
  forall acc,
    fold_left (fun a v => if includes v a then a else a ++ [v]) vs acc =
    acc ++ keepFirst (filter (fun v => negb (includes v acc)) vs).
Proof.
  induction vs as [| v vs IH]; intros acc; cbn.
  - now rewrite app_nil_r.
  - destruct (includes v acc) eqn:Hv; cbn.
    + apply IH.
    + rewrite IH, <- app_assoc. cbn. do 2 f_equal.
      rewrite <- keepFirst_filter. f_equal.
      rewrite filter_both. apply filter_ext.
      intros y. rewrite includes_app, negb_orb. apply andb_comm.
Qed.

Lemma keepFirst_In l x : In x (keepFirst l) <-> In x l.
Proof.
  induction l as [| y l IH]; cbn; [tauto |].
  rewrite filter_In, IH, negb_true_iff, String.eqb_neq.
  destruct (String.eqb_spec x y) as [-> | Hxy]; intuition congruence.
Qed.

Lemma keepFirst_NoDup l : NoDup (keepFirst l).
Proof.
  induction l as [| y l IH]; cbn; constructor.
  - rewrite filter_In, String.eqb_refl. intros [_ H]. discriminate.
  - now apply NoDup_filter.
Qed.

Lemma pushIfNew_values f sc acc :
  pushIfNew (f sc) acc = fold_left push (existingValues f [sc]) acc.
Proof.
  unfold pushIfNew, existingValues, push. cbn.
  destruct (f sc) as [v |]; [| reflexivity].
  destruct (truthy (Some v)); cbn; [| reflexivity].
  now destruct (includes v acc).
Qed.

Lemma existingValues_cons f c l :
  existingValues f (c :: l) = existingValues f [c] ++ existingValues f l.
Proof.
  unfold existingValues. cbn. now rewrite app_nil_r.
Qed.

(** The loop of [buildResponse], one accumulator at a time. *)
Lemma collect_loop secs :
  forall es ps ids,
    fold_left collect secs (es, ps, ids) =
    (fold_left push (existingValues email secs) es,
     fold_left push (existingValues phoneNumber secs) ps,
     ids ++ map id secs).
Proof.
  induction secs as [| sc secs IH]; intros es ps ids.
  - cbn. now rewrite app_nil_r.
  - cbn [fold_left collect map]. rewrite IH.
    rewrite (existingValues_cons email), (existingValues_cons phoneNumber).
    rewrite !fold_left_app, <- !pushIfNew_values, <- app_assoc.
    reflexivity.
Qed.

Lemma pushIfTruthy_values f c :
  pushIfTruthy (f c) [] = fold_left push (existingValues f [c]) [].
Proof.
  unfold pushIfTruthy, existingValues, push. cbn.
  destruct (f c) as [v |]; [| reflexivity].
  now destruct (truthy (Some v)).
Qed.

Lemma push_all_keepFirst vs : fold_left push vs [] = keepFirst vs.
Proof.
  unfold push. rewrite push_loop_keepFirst. cbn. f_equal.
  induction vs as [| v vs IH]; cbn; [reflexivity | now rewrite IH].
Qed.

(** [buildResponse] computes the view the specification names. *)
Lemma buildResponse_view s prim :
  buildResponse s prim =
  mkResponse (id prim)
    (keepFirst (existingValues email (prim :: secondariesOf s prim)))
    (keepFirst (existingValues phoneNumber (prim :: secondariesOf s prim)))
    (map id (secondariesOf s prim)).
Proof.
  unfold buildResponse. fold (secondariesOf s prim).
  rewrite collect_loop.
  rewrite (pushIfTruthy_values email), (pushIfTruthy_values phoneNumber).
  rewrite <- !fold_left_app, <- !existingValues_cons, !push_all_keepFirst.
  reflexivity.
Qed.

Lemma secondariesOf_perm s prim :
  Permutation (secondariesOf s prim)
    (filter (fun c => optZIs (id prim) (linkedId c)) (rows s)).
Proof.
  unfold secondariesOf, findMany. apply sortByCreatedAt_perm.
Qed.

Lemma existingValues_head f c l v :
  f c = Some v -> v <> EmptyString ->
  existingValues f (c :: l) = v :: existingValues f l.
Proof.
  intros Hv Hne. rewrite existingValues_cons.
  unfold existingValues at 1. cbn. rewrite Hv. cbn.
  apply String.eqb_neq in Hne. now rewrite Hne.
Qed.

(** C6, as the code has it.  The response of a call is the view of one
    contact, the new primary or the canonical one: its id; its own email and
    phone number first when they are neither null nor empty; then the values
    of the rows linked to it, in ascending creation order, each kept once and
    empty ones skipped; and the ids of all the rows linked to it, in
    ascending creation order. *)
Theorem identifyContact_view fuel now s e p s' r :
  identifyContact fuel now s e p = Some (s', r) ->
  exists prim,
    (prim = newRow s now e p None primary \/
     exists others,
       resolvePrimaries fuel s (matchingContacts s e p) = Some (prim :: others)) /\
    primaryContatctId r = id prim /\
    emails r =
      keepFirst (existingValues email (prim :: secondariesOf s' prim)) /\
    phoneNumbers r =
      keepFirst (existingValues phoneNumber (prim :: secondariesOf s' prim)) /\
    secondaryContactIds r = map id (secondariesOf s' prim) /\
    StronglySorted notAfter (secondariesOf s' prim) /\
    Permutation (secondariesOf s' prim)
      (filter (fun c => optZIs (id prim) (linkedId c)) (rows s')) /\
    NoDup (emails r) /\
    NoDup (phoneNumbers r) /\
    (forall v, email prim = Some v -> v <> EmptyString ->
       hd_error (emails r) = Some v) /\
    (forall v, phoneNumber prim = Some v -> v <> EmptyString ->
       hd_error (phoneNumbers r) = Some v).
Proof.
  intros H.
  assert (Hview : exists prim,
            (prim = newRow s now e p None primary \/
             exists others,
               resolvePrimaries fuel s (matchingContacts s e p)
               = Some (prim :: others)) /\
            r = buildResponse s' prim).
  { apply identifyContact_cases in H.
    destruct H as [(_ & _ & ->) | (can & others & s1 & _ & Hp & _ & _ & ->)].
    - eexists. split; [left |]; reflexivity.
    - exists can. split; [right; eauto | reflexivity]. }
  destruct Hview as (prim & Hprim & ->).
  exists prim. rewrite buildResponse_view. cbn [primaryContatctId emails
    phoneNumbers secondaryContactIds].
  repeat split; try apply keepFirst_NoDup; auto.
  - apply sortByCreatedAt_sorted.
  - apply secondariesOf_perm.
  - intros v Hv Hne. now rewrite (existingValues_head _ _ _ v Hv Hne).
  - intros v Hv Hne. now rewrite (existingValues_head _ _ _ v Hv Hne).
Qed.

Lemma identifyContact_view_witness :
  exists s' r,
    identifyContact 4 8 twoGroups
      (Some "emmett@hv.edu"%string) (Some "333"%string) = Some (s', r) /\
    NoDup (emails r) /\
    secondaryContactIds r = [1; 3; 4].
Proof.
  destruct (identifyContact 4 8 twoGroups
              (Some "emmett@hv.edu"%string) (Some "333"%string))
    as [[s' r] |] eqn:Hrun.
  - exists s', r. split; [reflexivity |].
    destruct (identifyContact_view 4 8 twoGroups _ _ s' r Hrun)
      as (prim & _ & _ & _ & _ & _ & _ & _ & Hnd & _).
    split; [exact Hnd |].
    vm_compute in Hrun. injection Hrun as <- <-. reflexivity.
  - vm_compute in Hrun. discriminate.
Defined.

(** C6 fails as stated.  The table is what two calls leave on the empty
    table, the first with the empty email the handler passes on for a blank
    one.  The canonical primary's email is not null, and the response does
    not start with it. *)
Lemma view_skips_empty_primary_email :
  handleIdentify 4 5 emptyStore (Some " "%string) (Some "123"%string)
    = Some (identifyContact 4 5 emptyStore
              (Some EmptyString) (Some "123"%string)) /\
  (exists r0 r1,
     identifyContact 4 5 emptyStore (Some EmptyString) (Some "123"%string)
       = Some (blankOnly, r0) /\
     identifyContact 4 6 blankOnly (Some "biff@hv.edu"%string)
       (Some "123"%string) = Some (blankPrimary, r1)) /\
  exists s' r prim,
    identifyContact 4 8 blankPrimary None (Some "123"%string) = Some (s', r) /\
    findUnique s' (primaryContatctId r) = Some prim /\
    linkPrecedence prim = primary /\
    email prim = Some EmptyString /\
    emails r = ["biff@hv.edu"%string] /\
    hd_error (emails r) <> email prim.
Proof.
  split; [reflexivity |].
  split.
  - do 2 eexists. split; vm_compute; reflexivity.
  - do 3 eexists. split; [vm_compute; reflexivity |].
    split; [vm_compute; reflexivity |].
    repeat split. discriminate.
Qed.

(* ================================================================= *)
(** ** The canonical primary *)

Lemma firstIds_In l k : In k (firstIds l) <-> In k l.
Proof.
  induction l as [| a l IH]; cbn; [tauto |].
  rewrite filter_In, IH, negb_true_iff, Z.eqb_neq.
  destruct (Z.eq_dec k a); intuition congruence.
Qed.

Lemma existsb_eqb_In k l : existsb (Z.eqb k) l = true <-> In k l.
Proof.
  rewrite existsb_exists. split.
  - intros (j & Hj & Hkj). apply Z.eqb_eq in Hkj. now subst.
  - intros H. exists k. split; [assumption | apply Z.eqb_refl].
Qed.

Lemma firstIds_snoc l k :
  firstIds (l ++ [k]) =
  if existsb (Z.eqb k) l then firstIds l else firstIds l ++ [k].
Proof.
  induction l as [| a l IH]; cbn; [reflexivity |].
  rewrite IH. destruct (Z.eqb_spec k a) as [-> | Hka]; cbn.
  - destruct (existsb (Z.eqb a) l); [reflexivity |].
    rewrite filter_app. cbn. rewrite Z.eqb_refl. cbn.
    now rewrite app_nil_r.
  - destruct (existsb (Z.eqb k) l); [reflexivity |].
    rewrite filter_app. cbn.
    apply Z.eqb_neq in Hka. now rewrite Hka.
Qed.

Lemma mapSet_key_order k v m :
  map fst (mapSet k v m) =
  if existsb (Z.eqb k) (map fst m) then map fst m else map fst m ++ [k].
Proof.
  induction m as [| [k' v'] m IH]; cbn; [reflexivity |].
  rewrite (Z.eqb_sym k k'). destruct (Z.eqb_spec k' k) as [-> | Hk]; cbn.
  - reflexivity.
  - rewrite IH. now destruct (existsb (Z.eqb k) (map fst m)).
Qed.

(** The keys of [primarySet] are the ids of the chain ends of the matched
    contacts, in the order in which they first came up. *)
Lemma resolveLoop_key_order fuel s :
  forall cs acc ps pre,
    map fst acc = firstIds pre ->
    resolveLoop fuel s cs acc = Some ps ->
    exists roots,
      resolvesTo fuel s cs roots /\
      map fst ps = firstIds (pre ++ map id roots).
Proof.
  induction cs as [| c cs IH]; intros acc ps pre Hacc H; cbn in H.
  - injection H as <-. exists []. split; [constructor |].
    cbn. now rewrite app_nil_r.
  - destruct (findPrimaryContact fuel s c) as [r |] eqn:Hr; [| discriminate].
    cbn in H.
    destruct (IH (mapSet (id r) r acc) ps (pre ++ [id r])) as (roots & Hroots & Hkeys).
    + rewrite mapSet_key_order, firstIds_snoc, Hacc.
      replace (existsb (Z.eqb (id r)) (firstIds pre))
        with (existsb (Z.eqb (id r)) pre); [reflexivity |].
      apply eq_true_iff_eq.
      now rewrite !existsb_eqb_In, firstIds_In.
    + assumption.
    + exists (r :: roots). split; [constructor; assumption |].
      rewrite Hkeys, <- app_assoc. reflexivity.
Qed.

(** C2, as the code has it.  When rows match, the distinct chain ends of the
    matched contacts (distinct by id, in the order in which they first came
    up) are sorted by [createdAt] alone, by a stable sort; the first of the
    sorted list is the canonical primary the merge and the response use.  No
    resolved primary is older than it, and among those of its own age it is
    the one that came up first, whatever the ids. *)
Theorem canonical_is_earliest fuel now s e p s' r :
  identifyContact fuel now s e p = Some (s', r) ->
  matchingContacts s e p <> [] ->
  exists can others primarySet roots s1,
    resolvesTo fuel s (matchingContacts s e p) roots /\
    resolveLoop fuel s (matchingContacts s e p) [] = Some primarySet /\
    map fst primarySet = firstIds (map id roots) /\
    can :: others = sortByCreatedAt (map snd primarySet) /\
    mergeLoop can others s = Some s1 /\
    primaryContatctId r = id can /\
    NoDup (map id (can :: others)) /\
    StronglySorted notAfter (can :: others) /\
    (forall o, In o others -> createdAt can <= createdAt o) /\
    exists before after,
      map snd primarySet = before ++ can :: after /\
      (forall x, In x before -> createdAt can < createdAt x) /\
      (forall x, In x after -> createdAt can <= createdAt x).
Proof.
  intros H Hsome.
  destruct (identifyContact_cases _ _ _ _ _ _ _ H)
    as [(Hnone & _) | (can & others & s1 & _ & Hp & Hm & _ & ->)];
    [now elim Hsome |].
  assert (Hin : forall x, In x (matchingContacts s e p) -> In x (rows s))
    by (intros x; apply matchingContacts_In).
  destruct (resolvePrimaries_spec _ _ _ _ Hin Hp) as (Hnd & _ & _ & Hsorted & _).
  unfold resolvePrimaries in Hp.
  destruct (resolveLoop fuel s (matchingContacts s e p) [])
    as [primarySet |] eqn:Hloop; [| discriminate].
  cbn in Hp. injection Hp as Hp.
  destruct (resolveLoop_key_order fuel s (matchingContacts s e p) []
              primarySet [] eq_refl Hloop)
    as (roots & Hroots & Hkeys).
  exists can, others, primarySet, roots, s1.
  repeat split; auto.
  - rewrite buildResponse_view. reflexivity.
  - intros o Ho. apply StronglySorted_inv in Hsorted.
    destruct Hsorted as [_ Hall]. rewrite Forall_forall in Hall.
    now apply Hall.
  - now apply sortByCreatedAt_head with others.
Qed.

Lemma canonical_is_earliest_witness :
  exists s' r,
    identifyContact 4 8 twoGroups
      (Some "emmett@hv.edu"%string) (Some "333"%string) = Some (s', r) /\
    primaryContatctId r = 2.
Proof.
  destruct (identifyContact 4 8 twoGroups
              (Some "emmett@hv.edu"%string) (Some "333"%string))
    as [[s' r] |] eqn:Hrun.
  - exists s', r. split; [reflexivity |].
    destruct (canonical_is_earliest 4 8 twoGroups _ _ s' r Hrun)
      as (can & others & primarySet & roots & s1 & _ & _ & _ & _ & _ & Hid & _).
    + vm_compute. discriminate.
    + vm_compute in Hrun. injection Hrun as <- <-. reflexivity.
  - vm_compute in Hrun. discriminate.
Defined.

(** C2 fails as stated: two resolved primaries have the same [createdAt],
    and the one with the higher id becomes the canonical primary. *)
Lemma canonical_not_lowest_id :
  exists s' r can other,
    identifyContact 4 8 twoGroups
      (Some "emmett@hv.edu"%string) (Some "333"%string) = Some (s', r) /\
    resolvePrimaries 4 twoGroups
      (matchingContacts twoGroups
         (Some "emmett@hv.edu"%string) (Some "333"%string))
    = Some [can; other] /\
    primaryContatctId r = id can /\
    createdAt other = createdAt can /\
    id other < id can /\
    findUnique s' (id other) =
      Some (row 1 (Some "doc@hv.edu"%string) (Some "111"%string)
                (Some (id can)) secondary 5).
Proof.
  do 4 eexists. split; [vm_compute; reflexivity |].
  split; [vm_compute; reflexivity |].
  repeat split.
Qed.

(* ================================================================= *)
(** ** The merge *)

Lemma relinkRow_step can o demoted c :
  can <> o -> ~ In can demoted ->
  mergeRow can demoted (relinkRow can o c) = mergeRow can (o :: demoted) c.
Proof.
  intros Hcan Hnot.
  assert (Hcan_out : existsb (Z.eqb can) demoted = false).
  { destruct (existsb (Z.eqb can) demoted) eqn:Hex; [| reflexivity].
    apply existsb_eqb_In in Hex. contradiction. }
  unfold relinkRow, reparentRow, demoteRow, mergeRow.
  cbn [existsb].
  destruct (Z.eqb_spec (id c) o) as [Hid | Hid].
  - cbn [linkedId setLink optZIs id].
    destruct (Z.eqb_spec can o) as [Heq | _]; [contradiction |].
    cbn [id setLink linkedId orb]. rewrite Hcan_out.
    now destruct (existsb (Z.eqb (id c)) demoted).
  - cbn [orb]. destruct (linkedId c) as [l |] eqn:Hl; cbn [optZIs].
    + destruct (Z.eqb_spec l o) as [-> | Hlo].
      * cbn [id setLinkedId linkedId orb]. rewrite Hcan_out.
        now destruct (existsb (Z.eqb (id c)) demoted).
      * rewrite Hl. cbn [orb]. reflexivity.
    + rewrite Hl. reflexivity.
Qed.

Lemma mergeLoop_rows can others :
  forall s s1,
    ~ In (id can) (map id others) ->
    mergeLoop can others s = Some s1 ->
    rows s1 = map (mergeRow (id can) (map id others)) (rows s) /\
    nextId s1 = nextId s.
Proof.
  induction others as [| o rest IH]; intros s s1 Hnot H; cbn in H.
  - injection H as <-. split; [| reflexivity].
    symmetry. rewrite <- (map_id (rows s)) at 2. apply map_ext.
    intros c. unfold mergeRow. cbn. now destruct (linkedId c).
  - destruct (demote can o s) as [s0 |] eqn:Hd; [| discriminate].
    cbn in H. cbn [map] in Hnot.
    apply IH in H; [| intros Hin; apply Hnot; now right].
    destruct H as [Hrows Hnext].
    apply demote_rows in Hd. subst s0. cbn [rows nextId] in *.
    split; [| assumption].
    rewrite Hrows, map_map. apply map_ext. intros c.
    apply relinkRow_step.
    + intros Heq. apply Hnot. now left.
    + intros Hin. apply Hnot. now right.
Qed.

Lemma store_eta s : s = mkStore (rows s) (nextId s).
Proof. now destruct s. Qed.

(** A call that found matching rows, in one picture: the primaries, the
    merged rows, the row it may have added, the response. *)
Lemma identifyContact_matched fuel now s e p s' r :
  identifyContact fuel now s e p = Some (s', r) ->
  matchingContacts s e p <> [] ->
  exists can others,
    let s1 := mkStore (map (mergeRow (id can) (map id others)) (rows s))
                      (nextId s) in
    resolvePrimaries fuel s (matchingContacts s e p) = Some (can :: others) /\
    mergeLoop can others s = Some s1 /\
    s' = (if hasNewInformation s1 can e p
          then mkStore (rows s1 ++ [newRow s1 now e p (Some (id can)) secondary])
                       (nextId s1 + 1)
          else s1) /\
    r = buildResponse s' can.
Proof.
  intros H Hsome.
  destruct (identifyContact_cases _ _ _ _ _ _ _ H)
    as [(Hnone & _) | (can & others & s1 & _ & Hp & Hm & Hs' & Hr)];
    [now elim Hsome |].
  exists can, others. cbn zeta.
  assert (Hin : forall x, In x (matchingContacts s e p) -> In x (rows s))
    by (intros x; apply matchingContacts_In).
  destruct (resolvePrimaries_spec _ _ _ _ Hin Hp) as (Hnd & _).
  cbn [map] in Hnd. apply NoDup_cons_iff in Hnd. destruct Hnd as [Hnot _].
  destruct (mergeLoop_rows _ _ _ _ Hnot Hm) as [Hrows Hnext].
  assert (Hs1 : s1 = mkStore (map (mergeRow (id can) (map id others)) (rows s))
                             (nextId s)).
  { rewrite (store_eta s1). now rewrite Hrows, Hnext. }
  rewrite <- Hs1. auto.
Qed.

Lemma mergeRow_sameData can demoted c : sameData c (mergeRow can demoted c).
Proof.
  unfold mergeRow.
  destruct (existsb (Z.eqb (id c)) demoted); [repeat split |].
  destruct (match linkedId c with Some _ => _ | None => _ end); repeat split.
Qed.

Lemma mergeRow_demoted can demoted c :
  In (id c) demoted -> mergeRow can demoted c = setLink can secondary c.
Proof.
  intros Hin. unfold mergeRow.
  apply existsb_eqb_In in Hin. now rewrite Hin.
Qed.

Lemma mergeRow_child can demoted c l :
  linkedId c = Some l -> In l demoted ->
  linkedId (mergeRow can demoted c) = Some can.
Proof.
  intros Hl Hin. unfold mergeRow. rewrite Hl.
  apply existsb_eqb_In in Hin. rewrite Hin.
  now destruct (existsb (Z.eqb (id c)) demoted).
Qed.

Lemma mergeRow_untouched can demoted c :
  ~ In (id c) demoted ->
  (forall l, linkedId c = Some l -> ~ In l demoted) ->
  mergeRow can demoted c = c.
Proof.
  intros Hid Hlink. unfold mergeRow.
  destruct (existsb (Z.eqb (id c)) demoted) eqn:Hex.
  - apply existsb_eqb_In in Hex. contradiction.
  - destruct (linkedId c) as [l |]; [| reflexivity].
    destruct (existsb (Z.eqb l) demoted) eqn:Hl; [| reflexivity].
    apply existsb_eqb_In in Hl. elim (Hlink l eq_refl Hl).
Qed.

Lemma secondaryContactIds_linked s prim c :
  In c (rows s) -> linkedId c = Some (id prim) ->
  In (id c) (secondaryContactIds (buildResponse s prim)).
Proof.
  intros Hin Hl. rewrite buildResponse_view. cbn [secondaryContactIds].
  apply in_map. unfold secondariesOf. apply findMany_In.
  split; [assumption |]. cbn. now apply optZIs_true.
Qed.

Lemma rows_after_insert (s1 : Store) (b : bool) (n : Contact) c :
  In c (rows s1) ->
  In c (rows (if b then mkStore (rows s1 ++ [n]) (nextId s1 + 1) else s1)).
Proof.
  intros H. destruct b; [cbn; apply in_or_app; now left | assumption].
Qed.

Lemma keptRows_after_insert s (s1 : Store) (b : bool) (n : Contact) :
  length (rows s1) = length (rows s) ->
  keptRows s (if b then mkStore (rows s1 ++ [n]) (nextId s1 + 1) else s1)
  = rows s1.
Proof.
  intros Hlen. unfold keptRows. destruct b; cbn [rows].
  - now destruct (split_at_length (rows s1) [n] (rows s) (eq_sym Hlen)) as [-> _].
  - rewrite <- Hlen. apply firstn_all.
Qed.

Lemma Forall2_map_right {A B : Type} (R : A -> B -> Prop) (f : A -> B) l :
  (forall x, In x l -> R x (f x)) -> Forall2 R l (map f l).
Proof.
  induction l as [| x l IH]; cbn; intros H; constructor.
  - apply H. now left.
  - apply IH. intros y Hy. apply H. now right.
Qed.

(** C3. On an acyclic table, a call that finds matching rows returns; every
    non-canonical primary it resolved is a row of the table, and the call
    leaves the rows with that id as secondaries whose [linkedId] is the
    canonical primary's id; every row whose [linkedId] was the id of such a
    demoted primary ends the call with [linkedId] equal to the canonical
    primary's id; and the ids of all these rows are in the returned
    [secondaryContactIds]. *)
Theorem merge_demotes_and_repoints fuel now s e p :
  acyclic s ->
  (length (rows s) <= fuel)%nat ->
  matchingContacts s e p <> [] ->
  exists s' r can others,
    identifyContact fuel now s e p = Some (s', r) /\
    resolvePrimaries fuel s (matchingContacts s e p) = Some (can :: others) /\
    primaryContatctId r = id can /\
    (forall o, In o others -> In o (rows s)) /\
    Forall2 (mergedInto can others r) (rows s) (keptRows s s').
Proof.
  intros Hacyc Hfuel Hsome.
  destruct (identifyContact_defined fuel now s e p Hacyc Hfuel)
    as (s' & r & Hrun).
  destruct (identifyContact_matched _ _ _ _ _ _ _ Hrun Hsome)
    as (can & others & Hp & Hm & Hs' & Hr).
  cbn zeta in *.
  set (s1 := mkStore (map (mergeRow (id can) (map id others)) (rows s))
                     (nextId s)) in *.
  exists s', r, can, others.
  assert (Hin : forall x, In x (matchingContacts s e p) -> In x (rows s))
    by (intros x; apply matchingContacts_In).
  destruct (resolvePrimaries_spec _ _ _ _ Hin Hp) as (_ & Hmem & _).
  repeat split; try assumption.
  - subst r. now rewrite buildResponse_view.
  - intros o Ho. apply Hmem. now right.
  - assert (Hkept : keptRows s s' = rows s1).
    { subst s'. apply keptRows_after_insert. subst s1. cbn.
      apply length_map. }
    rewrite Hkept. subst s1. cbn [rows].
    apply Forall2_map_right. intros c Hc.
    set (c' := mergeRow (id can) (map id others) c).
    assert (Hc' : In c' (rows s')).
    { subst s'. apply rows_after_insert. cbn. now apply in_map. }
    assert (Hid : id c' = id c)
      by (now destruct (mergeRow_sameData (id can) (map id others) c)).
    split; [apply mergeRow_sameData | split].
    + intros Hdem.
      assert (Heq : c' = setLink (id can) secondary c)
        by (now apply mergeRow_demoted).
      repeat split; try (rewrite Heq; reflexivity).
      subst r. rewrite <- Hid. apply secondaryContactIds_linked; auto.
      rewrite Heq. reflexivity.
    + intros o Ho Hl.
      assert (Hlink : linkedId c' = Some (id can)).
      { apply mergeRow_child with (id o); [assumption | now apply in_map]. }
      split; [assumption |].
      subst r. rewrite <- Hid. now apply secondaryContactIds_linked.
Qed.

Lemma merge_demotes_and_repoints_witness :
  exists s' r can others,
    identifyContact 4 8 twoGroups
      (Some "emmett@hv.edu"%string) (Some "333"%string) = Some (s', r) /\
    Forall2 (mergedInto can others r) (rows twoGroups) (keptRows twoGroups s').
Proof.
  destruct (merge_demotes_and_repoints 4 8 twoGroups
              (Some "emmett@hv.edu"%string) (Some "333"%string))
    as (s' & r & can & others & Hrun & _ & _ & _ & Hall).
  - apply linksGoDown_acyclic. reflexivity.
  - cbn. lia.
  - vm_compute. discriminate.
  - exists s', r, can, others. split; assumption.
Defined.

(* ================================================================= *)
(** ** Identity groups stay well formed *)

Lemma unique_by_id (l : list Contact) a b :
  NoDup (map id l) -> In a l -> In b l -> id a = id b -> a = b.
Proof.
  induction l as [| x l IH]; cbn; intros Hnd Ha Hb Hid; [destruct Ha |].
  inversion Hnd as [| ? ? Hnotin Hnd']; subst.
  destruct Ha as [-> | Ha], Hb as [-> | Hb]; auto.
  - elim Hnotin. rewrite Hid. now apply in_map.
  - elim Hnotin. rewrite <- Hid. now apply in_map.
Qed.

Lemma findUnique_unique s c :
  uniqueIds s -> In c (rows s) -> findUnique s (id c) = Some c.
Proof.
  intros Hu Hc.
  destruct (findUnique s (id c)) as [c' |] eqn:Hf.
  - f_equal. apply (unique_by_id (rows s)); auto.
    + eapply findUnique_In; eauto.
    + eapply findUnique_id; eauto.
  - now elim (findUnique_of_In s c Hc).
Qed.

(** In a flat table a chain ends at a primary. *)
Lemma flat_chainEnd s v :
  flat s -> In v (rows s) -> chainEnd s v ->
  linkPrecedence v = primary /\ linkedId v = None.
Proof.
  intros Hflat Hv Hend.
  destruct (Hflat v Hv) as [Hprim | (Hsec & P & HP & Hl & _)]; [assumption |].
  exfalso. destruct Hend as [Hnone | (l & Hl' & Hmiss)]; [congruence |].
  rewrite Hl in Hl'. injection Hl' as <-.
  now elim (findUnique_of_In s P HP).
Qed.

Lemma flat_resolves s c :
  uniqueIds s -> flat s -> In c (rows s) ->
  forall fuel, findPrimaryContact (S fuel) s c <> None.
Proof.
  intros Hu Hflat Hc fuel. cbn [findPrimaryContact].
  destruct (Hflat c Hc) as [[_ ->] | (_ & P & HP & -> & _ & HPl & _)];
    [discriminate |].
  rewrite (findUnique_unique s P Hu HP).
  destruct fuel; cbn [findPrimaryContact]; rewrite HPl; discriminate.
Qed.

Lemma linked_rootId s a b :
  uniqueIds s -> flat s -> linked s a b -> rootId a = rootId b.
Proof.
  intros Hu Hflat (Ha & Hb & Hl).
  destruct (Hflat a Ha) as [[_ Hnone] | (_ & P & HP & Hl' & _ & HPl & _)];
    [congruence |].
  assert (P = b).
  { apply (unique_by_id (rows s)); auto. congruence. }
  subst P. unfold rootId. now rewrite Hl, HPl.
Qed.

Lemma sameGroup_rootId s a b :
  uniqueIds s -> flat s -> sameGroup s a b -> rootId a = rootId b.
Proof.
  intros Hu Hflat. induction 1 as [a b H | a | a b _ IH | a m b _ IH1 _ IH2].
  - eapply linked_rootId; eauto.
  - reflexivity.
  - now symmetry.
  - congruence.
Qed.

(** What the invariant says about whole groups. *)
Lemma groupInvariant_groups s :
  groupInvariant s ->
  onePrimaryPerGroup s /\ groupHasPrimary s /\
  othersPointAtPrimary s /\ primaryIsEarliest s.
Proof.
  intros (Hu & _ & Hflat).
  assert (Hroot : forall c P, In c (rows s) -> In P (rows s) ->
            sameGroup s c P -> linkPrecedence P = primary ->
            createdAt P <= createdAt c /\
            (c = P \/ (linkPrecedence c = secondary /\ linkedId c = Some (id P)))).
  { intros c P Hc HP Hsame Hprim.
    pose proof (sameGroup_rootId s c P Hu Hflat Hsame) as Hr.
    assert (HPl : linkedId P = None).
    { destruct (Hflat P HP) as [[_ H] | (H & _)]; [assumption | congruence]. }
    unfold rootId in Hr. rewrite HPl in Hr.
    destruct (Hflat c Hc) as [[_ Hnone] | (Hsec & P' & HP' & Hl & _ & _ & Hle)].
    - rewrite Hnone in Hr.
      assert (c = P) by (apply (unique_by_id (rows s)); auto).
      subst c. split; [lia | now left].
    - rewrite Hl in Hr.
      assert (P' = P) by (apply (unique_by_id (rows s)); auto).
      subst P'. split; [assumption | right; auto]. }
  repeat split.
  - intros a b Ha Hb Hsame Hpa Hpb.
    destruct (Hroot a b Ha Hb Hsame Hpb) as [_ [Heq | [Hsec _]]];
      [assumption | congruence].
  - intros c Hc.
    destruct (Hflat c Hc) as [[Hprim _] | (_ & P & HP & Hl & HPp & _)].
    + exists c. repeat split; auto. apply rst_refl.
    + exists P. repeat split; auto. apply rst_step. repeat split; auto.
  - intros c P Hc HP Hsame Hprim. now apply Hroot.
  - intros c P Hc HP Hsame Hprim. now apply Hroot.
Qed.

Lemma flat_row_kept (rs rs' : list Contact) c :
  (forall x, In x rs -> In x rs') ->
  ((linkPrecedence c = primary /\ linkedId c = None) \/
   (linkPrecedence c = secondary /\
    exists P, In P rs /\ linkedId c = Some (id P) /\
              linkPrecedence P = primary /\ linkedId P = None /\
              createdAt P <= createdAt c)) ->
  (linkPrecedence c = primary /\ linkedId c = None) \/
  (linkPrecedence c = secondary /\
   exists P, In P rs' /\ linkedId c = Some (id P) /\
             linkPrecedence P = primary /\ linkedId P = None /\
             createdAt P <= createdAt c).
Proof.
  intros Hsub [H | (Hsec & P & HP & H)]; [now left | right].
  split; [assumption |]. exists P. split; [now apply Hsub | assumption].
Qed.

(** Appending a row with the next id keeps the invariant when the row itself
    is well formed in the new table. *)
Lemma groupInvariant_insert s n :
  groupInvariant s ->
  id n = nextId s ->
  ((linkPrecedence n = primary /\ linkedId n = None) \/
   (linkPrecedence n = secondary /\
    exists P, In P (rows s) /\ linkedId n = Some (id P) /\
              linkPrecedence P = primary /\ linkedId P = None /\
              createdAt P <= createdAt n)) ->
  groupInvariant (mkStore (rows s ++ [n]) (nextId s + 1)).
Proof.
  intros (Hu & Hids & Hflat) Hid Hn.
  assert (Hsub : forall x, In x (rows s) -> In x (rows s ++ [n]))
    by (intros x Hx; apply in_or_app; now left).
  repeat split.
  - unfold uniqueIds. cbn [rows]. rewrite map_app. cbn [map].
    eapply Permutation_NoDup; [apply Permutation_cons_append |].
    constructor; [| exact Hu].
    intros Hin. apply in_map_iff in Hin. destruct Hin as (c & Hc & Hin).
    specialize (Hids c Hin). lia.
  - intros c Hc. cbn [rows nextId] in *. apply in_app_or in Hc.
    destruct Hc as [Hc | [<- | []]]; [specialize (Hids c Hc) |]; lia.
  - intros c Hc. cbn [rows] in *. apply in_app_or in Hc.
    destruct Hc as [Hc | [<- | []]].
    + apply (flat_row_kept (rows s)); auto.
    + apply (flat_row_kept (rows s)); auto.
Qed.

(** The merge keeps the invariant when it folds primaries that are not
    older than the canonical one into it. *)
Lemma groupInvariant_merge s can others :
  groupInvariant s ->
  In can (rows s) -> linkPrecedence can = primary -> linkedId can = None ->
  ~ In (id can) (map id others) ->
  (forall o, In o others -> In o (rows s) /\ createdAt can <= createdAt o) ->
  groupInvariant
    (mkStore (map (mergeRow (id can) (map id others)) (rows s)) (nextId s)).
Proof.
  intros (Hu & Hids & Hflat) Hcan Hprim Hnone Hnot Hothers.
  set (D := map id others) in *.
  set (f := mergeRow (id can) D).
  assert (Hfid : forall c, id (f c) = id c).
  { intros c. destruct (mergeRow_sameData (id can) D c) as (H & _).
    exact H. }
  assert (Hfcreated : forall c, createdAt (f c) = createdAt c).
  { intros c. destruct (mergeRow_sameData (id can) D c) as (_ & _ & _ & H & _).
    exact H. }
  assert (Hkeep : forall P, In P (rows s) -> linkedId P = None ->
            ~ In (id P) D -> In P (map f (rows s))).
  { intros P HP HPl HPd. apply in_map_iff. exists P. split; [| assumption].
    apply mergeRow_untouched; [assumption |]. intros l Hl. congruence. }
  assert (Hcan' : In can (map f (rows s))) by now apply Hkeep.
  assert (Hdemoted : forall c, In c (rows s) -> In (id c) D ->
            createdAt can <= createdAt c).
  { intros c Hc Hin. apply in_map_iff in Hin. destruct Hin as (o & Hid & Ho).
    destruct (Hothers o Ho) as [Horow Hle].
    assert (o = c) by (apply (unique_by_id (rows s)); auto).
    now subst o. }
  repeat split.
  - unfold uniqueIds. cbn [rows]. rewrite map_map.
    rewrite (map_ext _ id Hfid). exact Hu.
  - intros c1 Hc1. cbn [rows nextId] in *. apply in_map_iff in Hc1.
    destruct Hc1 as (c & <- & Hc). rewrite Hfid. now apply Hids.
  - intros c1 Hc1. cbn [rows] in *. apply in_map_iff in Hc1.
    destruct Hc1 as (c & <- & Hc).
    destruct (in_dec Z.eq_dec (id c) D) as [Hin | Hout].
    + right. unfold f. rewrite (mergeRow_demoted _ _ _ Hin).
      split; [reflexivity |]. exists can.
      repeat split; auto. cbn. now apply Hdemoted.
    + destruct (Hflat c Hc) as [[Hp Hl] | (Hsec & P & HP & Hl & HPp & HPl & Hle)].
      * left. unfold f. rewrite mergeRow_untouched; auto.
        intros l Hl'. congruence.
      * right. destruct (in_dec Z.eq_dec (id P) D) as [HPin | HPout].
        -- assert (Hlink : linkedId (f c) = Some (id can))
             by (now apply mergeRow_child with (id P)).
           assert (Hprec : linkPrecedence (f c) = secondary).
           { unfold f, mergeRow.
             destruct (existsb (Z.eqb (id c)) D); [reflexivity |].
             destruct (match linkedId c with Some _ => _ | None => _ end);
               assumption. }
           split; [assumption |]. exists can.
           repeat split; auto. rewrite Hfcreated.
           specialize (Hdemoted P HP HPin). lia.
        -- unfold f. rewrite mergeRow_untouched; auto.
           ++ split; [assumption |]. exists P. repeat split; auto.
           ++ intros l Hl'. rewrite Hl in Hl'. injection Hl' as <-. assumption.
Qed.

(** One call keeps the invariant, as long as the clock has not gone back. *)
Lemma identifyContact_keeps_invariant fuel now s e p s' r :
  groupInvariant s ->
  clockOk s now ->
  identifyContact fuel now s e p = Some (s', r) ->
  groupInvariant s'.
Proof.
  intros Hinv Hclock Hrun.
  destruct (matchingContacts s e p) as [| m ms] eqn:Hmatch.
  - apply identifyContact_cases in Hrun.
    destruct Hrun as [(_ & -> & _) | (can & others & s1 & Hsome & _)];
      [| now elim Hsome].
    apply groupInvariant_insert; [assumption | reflexivity | now left].
  - assert (Hsome : matchingContacts s e p <> []) by (rewrite Hmatch; discriminate).
    destruct (identifyContact_matched _ _ _ _ _ _ _ Hrun Hsome)
      as (can & others & Hp & _ & Hs' & _).
    cbn zeta in *.
    assert (Hin : forall x, In x (matchingContacts s e p) -> In x (rows s))
      by (intros x; apply matchingContacts_In).
    destruct (resolvePrimaries_spec _ _ _ _ Hin Hp)
      as (Hnd & Hmem & _ & Hsorted & _).
    destruct Hinv as (Hu & Hids & Hflat).
    destruct (Hmem can (or_introl eq_refl)) as (Hcan & Hend & _).
    destruct (flat_chainEnd s can Hflat Hcan Hend) as [Hprim Hnone].
    cbn [map] in Hnd. apply NoDup_cons_iff in Hnd. destruct Hnd as [Hnot _].
    apply StronglySorted_inv in Hsorted. destruct Hsorted as [_ Hall].
    rewrite Forall_forall in Hall.
    assert (Hmerged : groupInvariant
              (mkStore (map (mergeRow (id can) (map id others)) (rows s))
                       (nextId s))).
    { apply groupInvariant_merge; auto; [repeat split; assumption |].
      intros o Ho. split; [apply Hmem; now right | now apply Hall]. }
    subst s'.
    destruct (hasNewInformation _ can e p); [| assumption].
    apply groupInvariant_insert; [assumption | reflexivity |].
    right. split; [reflexivity |]. exists can.
    repeat split; auto.
    cbn [rows]. apply in_map_iff. exists can. split; [| assumption].
    apply mergeRow_untouched; [assumption |]. intros l Hl. congruence.
Qed.

(** C5, as the code has it.  Take a table in which ids are unique and come
    from the sequence and every row is a primary without a link or a
    secondary linked directly to a primary whose [createdAt] is not later
    than its own.  Every table that calls of [identifyContact] lead to from
    it, the clock never going back, is such a table again.  In it every
    identity group has a primary and only one, every other row of the group
    is a secondary whose [linkedId] is that primary's id, no row of the group
    has an earlier [createdAt] than the primary, and every call with fuel for
    one step up returns. *)
Theorem groups_stay_well_formed s0 s :
  groupInvariant s0 ->
  reachable s0 s ->
  groupInvariant s /\
  groupHasPrimary s /\
  onePrimaryPerGroup s /\
  othersPointAtPrimary s /\
  primaryIsEarliest s /\
  (forall fuel now e p,
     exists s' r, identifyContact (S fuel) now s e p = Some (s', r)).
Proof.
  intros H0 Hreach.
  assert (Hinv : groupInvariant s).
  { induction Hreach as [| s fuel now e p s' r _ IH Hclock Hrun];
      [assumption |].
    eapply identifyContact_keeps_invariant; eauto. }
  destruct (groupInvariant_groups s Hinv) as (Hone & Hhas & Hpoint & Hearly).
  repeat split; try assumption; try apply Hinv.
  intros fuel now e p. apply identifyContact_defined_if.
  intros c Hc. destruct Hinv as (Hu & _ & Hflat).
  now apply flat_resolves.
Qed.

Lemma twoGroups_invariant : groupInvariant twoGroups.
Proof.
  repeat split.
  - unfold uniqueIds. cbn. repeat constructor; cbn; intuition discriminate.
  - intros c Hc. cbn in Hc.
    repeat (destruct Hc as [<- | Hc]; [cbn; lia |]). destruct Hc.
  - intros c Hc. cbn in Hc.
    destruct Hc as [<- | [<- | [<- | [<- | []]]]].
    + now left.
    + now left.
    + right. split; [reflexivity |].
      exists (row 2 (Some "marty@hv.edu"%string) (Some "222"%string)
                  None primary 5).
      cbn. repeat split; auto. lia.
    + right. split; [reflexivity |].
      exists (row 1 (Some "doc@hv.edu"%string) (Some "111"%string)
                  None primary 5).
      cbn. repeat split; auto. lia.
Qed.

Lemma groups_stay_well_formed_witness :
  exists s' r,
    identifyContact 4 8 twoGroups
      (Some "emmett@hv.edu"%string) (Some "333"%string) = Some (s', r) /\
    groupInvariant s' /\ onePrimaryPerGroup s'.
Proof.
  destruct (identifyContact 4 8 twoGroups
              (Some "emmett@hv.edu"%string) (Some "333"%string))
    as [[s' r] |] eqn:Hrun.
  - exists s', r. split; [reflexivity |].
    destruct (groups_stay_well_formed twoGroups s' twoGroups_invariant)
      as (Hinv & _ & Hone & _).
    + apply reach_call with twoGroups 4%nat 8
        (Some "emmett@hv.edu"%string) (Some "333"%string) r.
      * apply reach_here.
      * intros c Hc. cbn in Hc.
        repeat (destruct Hc as [<- | Hc]; [cbn; lia |]). destruct Hc.
      * exact Hrun.
    + split; assumption.
  - vm_compute in Hrun. discriminate.
Defined.

(* ================================================================= *)
(** ** New information *)

(** C1 at an empty email.  The handler turns a blank email into the empty
    string and passes it on; the row it then stores has that email.  The
    same request again matches the row by phone number, brings nothing the
    group does not have, and still inserts a secondary. *)
Lemma empty_email_counts_as_new :
  exists r0 s' r,
    handleIdentify 4 5 emptyStore (Some " "%string) (Some "123"%string)
      = Some (Some (blankOnly, r0)) /\
    identifyContact 4 6 blankOnly (Some EmptyString) (Some "123"%string)
      = Some (s', r) /\
    matchingContacts blankOnly (Some EmptyString) (Some "123"%string)
      = rows blankOnly /\
    allLinked blankOnly
      (row 1 (Some EmptyString) (Some "123"%string) None primary 5)
      = rows blankOnly /\
    ~ bringsNew (rows blankOnly) (Some EmptyString) (Some "123"%string) /\
    insertedRows blankOnly s' =
      [row 2 (Some EmptyString) (Some "123"%string) (Some 1) secondary 6].
Proof.
  do 3 eexists.
  split; [vm_compute; reflexivity |].
  split; [vm_compute; reflexivity |].
  split; [reflexivity |].
  split; [reflexivity |].
  split; [| reflexivity].
  intros [(v & [= <-] & Hnew) | (v & [= <-] & Hnew)]; apply Hnew;
    eexists; (split; [now left | reflexivity]).
Qed.

(** C4 at an empty email.  The same request three times in a row: the
    second and the third call each insert a row, although every value of the
    request has been in the group since the first. *)
Lemma repeat_with_empty_email_writes :
  exists r1 s2 r2 s3 r3,
    identifyContact 4 5 emptyStore (Some EmptyString) (Some "123"%string)
      = Some (blankOnly, r1) /\
    identifyContact 4 6 blankOnly (Some EmptyString) (Some "123"%string)
      = Some (s2, r2) /\
    identifyContact 4 7 s2 (Some EmptyString) (Some "123"%string)
      = Some (s3, r3) /\
    length (rows blankOnly) = 1%nat /\
    length (rows s2) = 2%nat /\
    length (rows s3) = 3%nat /\
    secondaryContactIds r1 = [] /\
    secondaryContactIds r2 = [2] /\
    secondaryContactIds r3 = [2; 3].
Proof.
  do 5 eexists.
  split; [vm_compute; reflexivity |].
  split; [vm_compute; reflexivity |].
  split; [vm_compute; reflexivity |].
  repeat split.
Qed.

Lemma existingValues_In f group v :
  In v (existingValues f group) <->
  (exists c, In c group /\ f c = Some v) /\ v <> EmptyString.
Proof.
  unfold existingValues. rewrite in_flat_map. split.
  - intros (c & Hc & Hv). destruct (f c) as [w |] eqn:Hf; [| destruct Hv].
    cbn in Hv. destruct (String.eqb_spec w EmptyString) as [Hw | Hw];
      cbn in Hv; [destruct Hv |].
    destruct Hv as [<- | []]. split; [exists c; auto | assumption].
  - intros [(c & Hc & Hf) Hne]. exists c. split; [assumption |].
    rewrite Hf. cbn. apply String.eqb_neq in Hne. rewrite Hne. now left.
Qed.

(** For a field that is null or not empty, the test of the code is the test
    of the specification. *)
Lemma hasNew_plain f group v :
  plain v ->
  hasNew v (existingValues f group) = true <->
  exists w, v = Some w /\ ~ exists c, In c group /\ f c = Some w.
Proof.
  intros Hplain. destruct v as [w |]; cbn.
  - rewrite negb_true_iff, <- not_true_iff_false, includes_true,
      existingValues_In.
    assert (Hne : w <> EmptyString) by (intros ->; now apply Hplain).
    split.
    + intros Hnot. exists w. split; [reflexivity |]. tauto.
    + intros (w' & [= <-] & Hnot). tauto.
  - split; [discriminate | intros (w & Hw & _); discriminate].
Qed.

Lemma hasNewInformation_plain s can e p :
  plain e -> plain p ->
  hasNewInformation s can e p = true <-> bringsNew (allLinked s can) e p.
Proof.
  intros He Hp. unfold hasNewInformation, bringsNew, knownEmail, knownPhone.
  rewrite orb_true_iff, (hasNew_plain email _ e He),
    (hasNew_plain phoneNumber _ p Hp).
  reflexivity.
Qed.

(** X1. New information, away from the empty string.  When rows match and
    each request field is null or a non-empty string, a row is inserted
    exactly when the request brings an email or a phone number that no row
    of the merged group has, whatever rows the known values sit in; the row
    then inserted is one secondary linked to the canonical primary that
    stores the request. *)
Theorem new_information_iff fuel now s e p s' r :
  identifyContact fuel now s e p = Some (s', r) ->
  matchingContacts s e p <> [] ->
  plain e -> plain p ->
  exists can others s1,
    resolvePrimaries fuel s (matchingContacts s e p) = Some (can :: others) /\
    mergeLoop can others s = Some s1 /\
    (bringsNew (allLinked s1 can) e p ->
     insertedRows s s' = [newRow s1 now e p (Some (id can)) secondary]) /\
    (~ bringsNew (allLinked s1 can) e p -> insertedRows s s' = []).
Proof.
  intros Hrun Hsome He Hp.
  destruct (identifyContact_rows _ _ _ _ _ _ _ Hrun)
    as (_ & _ & [(Hnone & _) | (can & others & s1 & _ & Hps & Hm & _ & Hins)]);
    [now elim Hsome |].
  exists can, others, s1. repeat split; try assumption.
  - intros Hnew. apply (hasNewInformation_plain s1 can e p He Hp) in Hnew.
    now rewrite Hnew in Hins.
  - intros Hold.
    destruct (hasNewInformation s1 can e p) eqn:Hh; [| assumption].
    elim Hold. now apply (hasNewInformation_plain s1 can e p He Hp).
Qed.

Lemma new_information_iff_witness :
  exists s' r,
    identifyContact 4 8 splitPairing
      (Some "a@hv.edu"%string) (Some "222"%string) = Some (s', r) /\
    insertedRows splitPairing s' = [].
Proof.
  destruct (identifyContact 4 8 splitPairing
              (Some "a@hv.edu"%string) (Some "222"%string))
    as [[s' r] |] eqn:Hrun.
  - exists s', r. split; [reflexivity |].
    destruct (new_information_iff 4 8 splitPairing _ _ s' r Hrun)
      as (can & others & s1 & Hps & Hm & _ & Hnone).
    + vm_compute. discriminate.
    + discriminate.
    + discriminate.
    + apply Hnone.
      vm_compute in Hps. injection Hps as <- <-.
      vm_compute in Hm. injection Hm as <-.
      intros [(v & [= <-] & Hnew) | (v & [= <-] & Hnew)]; apply Hnew.
      * eexists. split; [left; reflexivity | reflexivity].
      * eexists. split; [right; left; reflexivity | reflexivity].
  - vm_compute in Hrun. discriminate.
Defined.

(* ================================================================= *)
(** ** Repeating a request *)

Lemma flat_root fuel s c :
  uniqueIds s -> flat s -> In c (rows s) ->
  exists K,
    findPrimaryContact (S fuel) s c = Some K /\
    In K (rows s) /\ linkPrecedence K = primary /\ linkedId K = None /\
    (c = K \/ (linkPrecedence c = secondary /\ linkedId c = Some (id K))).
Proof.
  intros Hu Hflat Hc. cbn [findPrimaryContact].
  destruct (Hflat c Hc) as [[Hp Hl] | (Hsec & P & HP & Hl & HPp & HPl & _)].
  - exists c. rewrite Hl. repeat split; auto.
  - exists P. rewrite Hl, (findUnique_unique s P Hu HP).
    repeat split; auto.
    destruct fuel; cbn [findPrimaryContact]; now rewrite HPl.
Qed.

Lemma resolveLoop_single fuel s K :
  forall cs acc,
    (forall c, In c cs -> findPrimaryContact fuel s c = Some K) ->
    acc = [] \/ acc = [(id K, K)] ->
    cs <> [] \/ acc <> [] ->
    resolveLoop fuel s cs acc = Some [(id K, K)].
Proof.
  induction cs as [| c cs IH]; intros acc Hall Hacc Hne; cbn.
  - destruct Hacc as [-> | ->]; [| reflexivity].
    destruct Hne as [Hne | Hne]; now elim Hne.
  - rewrite (Hall c (or_introl eq_refl)). cbn.
    apply IH.
    + intros c' Hc'. apply Hall. now right.
    + right. destruct Hacc as [-> | ->]; cbn; [reflexivity |].
      now rewrite Z.eqb_refl.
    + right. apply mapSet_not_nil.
Qed.

Lemma resolvePrimaries_single fuel s K cs :
  cs <> [] ->
  (forall c, In c cs -> findPrimaryContact fuel s c = Some K) ->
  resolvePrimaries fuel s cs = Some [K].
Proof.
  intros Hne Hall. unfold resolvePrimaries.
  rewrite (resolveLoop_single fuel s K cs []); auto.
Qed.

(** A call on a table where every matching row belongs to the group of one
    primary, and the request brings nothing new, writes nothing. *)
Lemma identifyContact_settled fuel now s K e p :
  uniqueIds s ->
  In K (rows s) -> linkedId K = None ->
  matchingContacts s e p <> [] ->
  (forall c, In c (matchingContacts s e p) ->
     c = K \/ linkedId c = Some (id K)) ->
  hasNewInformation s K e p = false ->
  identifyContact (S fuel) now s e p = Some (s, buildResponse s K).
Proof.
  intros Hu HK HKl Hsome Hgroup Hold.
  assert (Hres : forall c, In c (matchingContacts s e p) ->
            findPrimaryContact (S fuel) s c = Some K).
  { intros c Hc. cbn [findPrimaryContact].
    destruct (Hgroup c Hc) as [-> | Hl].
    - now rewrite HKl.
    - rewrite Hl, (findUnique_unique s K Hu HK).
      destruct fuel; cbn [findPrimaryContact]; now rewrite HKl. }
  unfold identifyContact.
  destruct (matchingContacts s e p) as [| m ms]; [now elim Hsome |].
  rewrite (resolvePrimaries_single (S fuel) s K _ Hsome Hres).
  cbn. now rewrite Hold.
Qed.

Lemma selects_request_ext e p c c' :
  email c' = email c -> phoneNumber c' = phoneNumber c ->
  selects (OR (conditions e p)) c' = selects (OR (conditions e p)) c.
Proof.
  intros He Hp. cbn [selects]. unfold conditions.
  destruct e as [v |], p as [w |]; cbn;
    repeat match goal with
           | |- context [if negb ?b then _ else _] => destruct b; cbn
           end;
    rewrite ?He, ?Hp; reflexivity.
Qed.

Lemma selects_own_request e p n :
  truthy e = true \/ truthy p = true ->
  email n = e -> phoneNumber n = p ->
  selects (OR (conditions e p)) n = true.
Proof.
  intros Hgiven He Hp. cbn [selects]. unfold conditions.
  apply existsb_exists.
  destruct Hgiven as [Ht | Ht].
  - destruct e as [v |]; [| discriminate]. rewrite Ht.
    exists (ByEmail v). split; [now left |].
    cbn. rewrite He. cbn. apply String.eqb_refl.
  - destruct p as [w |]; [| discriminate]. rewrite Ht.
    exists (ByPhoneNumber w). split; [apply in_or_app; right; now left |].
    cbn. rewrite Hp. cbn. apply String.eqb_refl.
Qed.

Lemma matchingContacts_iff s e p c :
  In c (matchingContacts s e p) <->
  In c (rows s) /\ selects (OR (conditions e p)) c = true.
Proof. unfold matchingContacts. apply findMany_In. Qed.

Lemma allLinked_In s K c :
  In c (allLinked s K) <->
  In c (rows s) /\ (id c = id K \/ linkedId c = Some (id K)).
Proof.
  unfold allLinked. rewrite findMany_In. cbn.
  rewrite orb_false_r, orb_true_iff, Z.eqb_eq, optZIs_true. reflexivity.
Qed.

(** Once a row of the group stores the request, the request is not new. *)
Lemma hasNewInformation_stored s K e p n :
  plain e -> plain p ->
  In n (allLinked s K) -> email n = e -> phoneNumber n = p ->
  hasNewInformation s K e p = false.
Proof.
  intros He Hp Hn Hne Hnp.
  apply not_true_iff_false. rewrite (hasNewInformation_plain s K e p He Hp).
  intros [(v & Hv & Hnew) | (v & Hv & Hnew)]; apply Hnew; exists n;
    (split; [assumption | congruence]).
Qed.

Lemma mergeRow_joins can demoted c l :
  linkedId c = Some l -> l = can \/ In l demoted ->
  linkedId (mergeRow can demoted c) = Some can.
Proof.
  intros Hl Hwhere. unfold mergeRow. rewrite Hl.
  destruct (existsb (Z.eqb (id c)) demoted); [reflexivity |].
  destruct (existsb (Z.eqb l) demoted) eqn:Hex; [reflexivity |].
  destruct Hwhere as [-> | Hin]; [assumption |].
  apply existsb_eqb_In in Hin. congruence.
Qed.

(** X2. Idempotence, away from the empty string.  On a table with well-formed
    groups, a request with at least one field given and no field equal to the
    empty string, made a second time, writes nothing and gets the answer of
    the first call. *)
Theorem identifyContact_idempotent fuel fuel' now now' s e p s1 r1 :
  groupInvariant s ->
  clockOk s now ->
  plain e -> plain p ->
  truthy e = true \/ truthy p = true ->
  identifyContact (S fuel) now s e p = Some (s1, r1) ->
  identifyContact (S fuel') now' s1 e p = Some (s1, r1).
Proof.
  intros Hinv Hclock He Hp Hgiven Hrun.
  pose proof (identifyContact_keeps_invariant _ _ _ _ _ _ _ Hinv Hclock Hrun)
    as (Hu1 & _ & _).
  destruct (matchingContacts s e p) as [| m ms] eqn:Hmatch.
  - (* the first call inserted a primary *)
    apply identifyContact_cases in Hrun.
    destruct Hrun as [(_ & Hs1 & Hr1) | (can & others & s0 & Hsome & _)];
      [| now elim Hsome].
    set (n := newRow s now e p None primary) in *.
    assert (Hn : In n (rows s1)).
    { rewrite Hs1. cbn. apply in_or_app. right. now left. }
    assert (Hnsel : selects (OR (conditions e p)) n = true)
      by (now apply selects_own_request).
    rewrite Hr1. apply identifyContact_settled; auto.
    + intros Hnil.
      assert (Hin : In n (matchingContacts s1 e p))
        by (apply matchingContacts_iff; auto).
      rewrite Hnil in Hin. destruct Hin.
    + intros c Hc. apply matchingContacts_iff in Hc. destruct Hc as [Hc Hsel].
      rewrite Hs1 in Hc. cbn in Hc. apply in_app_or in Hc.
      destruct Hc as [Hc | [<- | []]]; [| now left].
      assert (Hin : In c (matchingContacts s e p))
        by (apply matchingContacts_iff; auto).
      rewrite Hmatch in Hin. destruct Hin.
    + apply hasNewInformation_stored with n; auto.
      apply allLinked_In. auto.
  - (* the first call found rows *)
    assert (Hsome : matchingContacts s e p <> [])
      by (rewrite Hmatch; discriminate).
    clear Hmatch m ms.
    destruct (identifyContact_matched _ _ _ _ _ _ _ Hrun Hsome)
      as (can & others & Hps & _ & Hs1 & Hr1).
    cbn zeta in *.
    set (D := map id others) in *.
    set (f := mergeRow (id can) D) in *.
    set (s0 := mkStore (map f (rows s)) (nextId s)) in *.
    assert (Hin : forall x, In x (matchingContacts s e p) -> In x (rows s))
      by (intros x; apply matchingContacts_In).
    destruct (resolvePrimaries_spec _ _ _ _ Hin Hps)
      as (Hnd & Hmem & Hcov & _ & _).
    destruct Hinv as (Hu & Hids & Hflat).
    destruct (Hmem can (or_introl eq_refl)) as (Hcan & Hend & _).
    destruct (flat_chainEnd s can Hflat Hcan Hend) as [Hprim Hnone].
    cbn [map] in Hnd. apply NoDup_cons_iff in Hnd. destruct Hnd as [Hnot _].
    fold D in Hnot.
    assert (Hfcan : f can = can).
    { apply mergeRow_untouched; [assumption |]. intros l Hl. congruence. }
    assert (Hrows0 : forall c, In c (rows s) -> In (f c) (rows s1)).
    { intros c Hc. rewrite Hs1. apply rows_after_insert. cbn.
      now apply in_map. }
    assert (Hcan1 : In can (rows s1)).
    { rewrite <- Hfcan. now apply Hrows0. }
    assert (Hfsel : forall c, selects (OR (conditions e p)) (f c)
                              = selects (OR (conditions e p)) c).
    { intros c. destruct (mergeRow_sameData (id can) D c)
        as (_ & Hem & Hph & _).
      now apply selects_request_ext. }
    assert (Hjoin : forall c, In c (rows s) ->
              selects (OR (conditions e p)) c = true ->
              f c = can \/ linkedId (f c) = Some (id can)).
    { intros c Hc Hsel.
      assert (Hcm : In c (matchingContacts s e p))
        by (apply matchingContacts_iff; auto).
      destruct (flat_root fuel s c Hu Hflat Hc)
        as (K & HK & HKin & _ & _ & Hrel).
      pose proof (Hcov c K Hcm HK) as Hid. cbn [map] in Hid. fold D in Hid.
      destruct Hrel as [<- | [_ Hl]].
      - destruct Hid as [Hid | Hid].
        + left. assert (can = c) by (apply (unique_by_id (rows s)); auto).
          now subst c.
        + right. unfold f. now rewrite (mergeRow_demoted _ _ _ Hid).
      - right. apply mergeRow_joins with (id K); [assumption |].
        destruct Hid as [Hid | Hid]; [now left | now right]. }
    rewrite Hr1. apply identifyContact_settled; auto.
    + intros Hnil.
      destruct (matchingContacts s e p) as [| m ms] eqn:Hm;
        [now elim Hsome |].
      assert (Hmin : In m (matchingContacts s e p)) by (rewrite Hm; now left).
      apply matchingContacts_iff in Hmin. destruct Hmin as [Hmrow Hmsel].
      assert (Hin1 : In (f m) (matchingContacts s1 e p)).
      { apply matchingContacts_iff. split; [now apply Hrows0 |].
        now rewrite Hfsel. }
      rewrite Hnil in Hin1. destruct Hin1.
    + intros c1 Hc1. apply matchingContacts_iff in Hc1.
      destruct Hc1 as [Hc1 Hsel].
      assert (Hwhere : In c1 (rows s0) \/
                c1 = newRow s0 now e p (Some (id can)) secondary).
      { rewrite Hs1 in Hc1. destruct (hasNewInformation s0 can e p).
        - cbn [rows] in Hc1. apply in_app_or in Hc1.
          destruct Hc1 as [Hc1 | [<- | []]]; auto.
        - now left. }
      destruct Hwhere as [Hold | ->]; [| now right].
      cbn [rows s0] in Hold. apply in_map_iff in Hold.
      destruct Hold as (c & <- & Hc).
      apply Hjoin; [assumption |]. now rewrite <- Hfsel.
    + destruct (hasNewInformation s0 can e p) eqn:Hnew.
      * apply hasNewInformation_stored
          with (newRow s0 now e p (Some (id can)) secondary); auto.
        apply allLinked_In. rewrite Hs1. cbn [rows]. split.
        -- apply in_or_app. right. now left.
        -- now right.
      * now rewrite Hs1.
Qed.

Lemma identifyContact_idempotent_witness :
  exists s1 r1,
    identifyContact 4 8 twoGroups
      (Some "emmett@hv.edu"%string) (Some "333"%string) = Some (s1, r1) /\
    identifyContact 4 9 s1
      (Some "emmett@hv.edu"%string) (Some "333"%string) = Some (s1, r1).
Proof.
  destruct (identifyContact 4 8 twoGroups
              (Some "emmett@hv.edu"%string) (Some "333"%string))
    as [[s1 r1] |] eqn:Hrun.
  - exists s1, r1. split; [reflexivity |].
    apply (identifyContact_idempotent 3 3 8 9 twoGroups _ _ s1 r1
             twoGroups_invariant).
    + intros c Hc. cbn in Hc.
      repeat (destruct Hc as [<- | Hc]; [cbn; lia |]). destruct Hc.
    + discriminate.
    + discriminate.
    + now left.
    + exact Hrun.
  - vm_compute in Hrun. discriminate.
Defined.

(* ================================================================= *)
(** ** Ties on [createdAt] and the group invariant *)

(** [twoGroups] is what four calls leave on the empty table. *)
Lemma twoGroups_reachable : reachable emptyStore twoGroups.
Proof.
  pose proof (reach_here emptyStore) as H.
  call_step H 4%nat 5 (Some "doc@hv.edu"%string) (Some "111"%string).
  call_step H 4%nat 5 (Some "marty@hv.edu"%string) (Some "222"%string).
  call_step H 4%nat 6 (Some "emmett@hv.edu"%string) (Some "222"%string).
  call_step H 4%nat 7 (Some "doc@hv.edu"%string) (Some "333"%string).
  exact H.
Qed.

Lemma twoGroups_primaryIsFirst : primaryIsFirst twoGroups.
Proof.
  destruct (groupInvariant_groups twoGroups twoGroups_invariant)
    as (_ & _ & Hpoint & Hearly).
  intros c P Hc HP Hsame Hprim Hbefore.
  pose proof (Hearly c P Hc HP Hsame Hprim) as Hle.
  destruct (Hpoint c P Hc HP Hsame Hprim) as [-> | [Hsec Hl]].
  - destruct Hbefore as [Hlt | [_ Hlt]]; lia.
  - destruct Hbefore as [Hlt | [Heq Hlt]]; [lia |].
    cbn in Hc, HP.
    destruct Hc as [<- | [<- | [<- | [<- | []]]]]; try discriminate;
      destruct HP as [<- | [<- | [<- | [<- | []]]]]; discriminate.
Qed.

(** C5 fails when ties on [createdAt] are broken by id: from a table
    reached by four calls, in which every primary is the first-created row
    of its group, one more call leads to a table in which the row with id 1
    is a secondary of the primary with id 2, created in the same
    millisecond. *)
Lemma primary_not_first_created :
  reachable emptyStore twoGroups /\
  groupInvariant twoGroups /\
  primaryIsFirst twoGroups /\
  clockOk twoGroups 8 /\
  exists s' r,
    identifyContact 4 8 twoGroups
      (Some "emmett@hv.edu"%string) (Some "333"%string) = Some (s', r) /\
    reachable twoGroups s' /\
    ~ primaryIsFirst s'.
Proof.
  assert (Hclock : clockOk twoGroups 8) by (intros c Hc; rows_cases Hc).
  split; [apply twoGroups_reachable |].
  split; [apply twoGroups_invariant |].
  split; [apply twoGroups_primaryIsFirst |].
  split; [assumption |].
  destruct (identifyContact 4 8 twoGroups
              (Some "emmett@hv.edu"%string) (Some "333"%string))
    as [[s' r] |] eqn:Hrun; [| vm_compute in Hrun; discriminate].
  exists s', r. split; [reflexivity |].
  split.
  - eapply reach_call; [apply reach_here | exact Hclock | exact Hrun].
  - vm_compute in Hrun. injection Hrun as <- _.
    intros Hfirst.
    apply (Hfirst
             (row 1 (Some "doc@hv.edu"%string) (Some "111"%string)
                  (Some 2) secondary 5)
             (row 2 (Some "marty@hv.edu"%string) (Some "222"%string)
                  None primary 5)).
    + cbn. auto.
    + cbn. auto.
    + apply rst_step. repeat split; cbn; auto.
    + reflexivity.
    + right. cbn. lia.
Qed.

(* ================================================================= *)
(** ** Chains that do not end *)

Lemma parentOf_functional s c p p' :
  parentOf s c p -> parentOf s c p' -> p = p'.
Proof.
  intros (l & Hl & Hp) (l' & Hl' & Hp'). congruence.
Qed.

(** From a contact that reaches a cycle, one step leads to a contact that
    reaches the cycle. *)
Lemma cycle_step s m x r :
  clos_trans Contact (parentOf s) m m ->
  clos_refl_trans Contact (parentOf s) x m ->
  parentOf s x r ->
  clos_refl_trans Contact (parentOf s) r m.
Proof.
  intros Hcycle Hxm Hstep.
  apply clos_rt_rt1n in Hxm.
  inversion Hxm as [Heq | y z Hxy Hym Hz]; subst.
  - apply clos_trans_t1n in Hcycle.
    inversion Hcycle as [y Hxy | y z Hxy Hyz]; subst.
    + rewrite (parentOf_functional s m r m Hstep Hxy). apply rt_refl.
    + rewrite (parentOf_functional s m r y Hstep Hxy).
      apply clos_t_clos_rt. now apply clos_t1n_trans.
  - rewrite (parentOf_functional s x r y Hstep Hxy).
    now apply clos_rt1n_rt.
Qed.

Lemma cycle_reached s m c r :
  clos_trans Contact (parentOf s) m m ->
  clos_refl_trans Contact (parentOf s) c m ->
  clos_refl_trans Contact (parentOf s) c r ->
  clos_refl_trans Contact (parentOf s) r m.
Proof.
  intros Hcycle Hcm Hcr. apply clos_rt_rtn1 in Hcr.
  induction Hcr as [| x r Hstep _ IH]; [assumption |].
  eapply cycle_step; eauto.
Qed.

Lemma reaches_cycle_has_parent s m r :
  clos_trans Contact (parentOf s) m m ->
  clos_refl_trans Contact (parentOf s) r m ->
  exists p, parentOf s r p.
Proof.
  intros Hcycle Hrm. apply clos_rt_rt1n in Hrm.
  inversion Hrm as [Heq | y z Hry _ Hz]; subst.
  - apply clos_trans_t1n in Hcycle.
    inversion Hcycle as [y Hry | y z Hry _]; subst; eexists; eassumption.
  - eexists; eassumption.
Qed.

Lemma resolveLoop_all_resolved fuel s :
  forall cs acc ps,
    resolveLoop fuel s cs acc = Some ps ->
    forall c, In c cs -> findPrimaryContact fuel s c <> None.
Proof.
  induction cs as [| c0 cs IH]; intros acc ps H c Hc; cbn in H.
  - destruct Hc.
  - destruct (findPrimaryContact fuel s c0) as [r0 |] eqn:Hr0; [| discriminate].
    cbn in H. destruct Hc as [<- | Hc]; [congruence | eauto].
Qed.

(** X3. A chain that runs into a cycle is never resolved: whatever the fuel,
    [findPrimaryContact] has not returned; and a request that matches a
    contact with such a chain gets no answer from [identifyContact]. *)
Theorem cycle_never_resolved s c :
  runsIntoCycle s c ->
  (forall fuel, findPrimaryContact fuel s c = None) /\
  (forall fuel now e p,
     In c (matchingContacts s e p) -> identifyContact fuel now s e p = None).
Proof.
  intros (m & Hcm & Hcycle).
  assert (Hwalk : forall fuel, findPrimaryContact fuel s c = None).
  { intros fuel.
    destruct (findPrimaryContact fuel s c) as [r |] eqn:Hr; [| reflexivity].
    exfalso. apply findPrimaryContact_sound in Hr. destruct Hr as [Hcr Hend].
    pose proof (cycle_reached s m c r Hcycle Hcm Hcr) as Hrm.
    destruct (reaches_cycle_has_parent s m r Hcycle Hrm) as (p & l & Hl & Hp).
    destruct Hend as [Hnone | (l' & Hl' & Hmiss)]; congruence. }
  split; [assumption |].
  intros fuel now e p Hc.
  destruct (identifyContact fuel now s e p) as [[s' r] |] eqn:Hrun;
    [| reflexivity].
  exfalso. apply identifyContact_cases in Hrun.
  destruct Hrun as [(Hnone & _) | (can & others & s1 & _ & Hps & _)].
  - rewrite Hnone in Hc. destruct Hc.
  - unfold resolvePrimaries in Hps.
    destruct (resolveLoop fuel s (matchingContacts s e p) []) as [ps |] eqn:Hl;
      [| discriminate].
    now apply (resolveLoop_all_resolved _ _ _ _ _ Hl c Hc).
Qed.

Lemma cycle_never_resolved_witness :
  identifyContact 100 9 selfLinked (Some "doc@hv.edu"%string) None = None.
Proof.
  refine (proj2 (cycle_never_resolved selfLinked
                   (row 1 (Some "doc@hv.edu"%string) (Some "111"%string)
                        (Some 1) secondary 5) _) 100%nat 9 _ None _).
  - eexists. split; [apply rt_refl |].
    apply t_step. exists 1. split; reflexivity.
  - cbn. now left.
Defined.

(* ================================================================= *)
(** ** The bound on the chain walk *)

Lemma findPrimaryContact_more_fuel s :
  forall fuel fuel' c r,
    findPrimaryContact fuel s c = Some r ->
    (fuel <= fuel')%nat ->
    findPrimaryContact fuel' s c = Some r.
Proof.
  induction fuel as [| fuel IH]; intros fuel' c r H Hle.
  - cbn [findPrimaryContact] in H.
    destruct fuel'; cbn [findPrimaryContact];
      destruct (linkedId c) as [l |]; try assumption;
      destruct (findUnique s l); try assumption; discriminate.
  - destruct fuel' as [| fuel']; [lia |].
    cbn [findPrimaryContact] in *.
    destruct (linkedId c) as [l |]; [| assumption].
    destruct (findUnique s l) as [parent |]; [| assumption].
    apply IH; [assumption | lia].
Qed.

Lemma findPrimaryContact_fixed fuel s c r :
  findPrimaryContact fuel s c = Some r ->
  forall fuel', findPrimaryContact fuel' s r = Some r.
Proof.
  intros H fuel'. apply findPrimaryContact_sound in H.
  destruct H as [_ [Hnone | (l & Hl & Hmiss)]];
    destruct fuel'; cbn [findPrimaryContact];
    rewrite ?Hnone, ?Hl, ?Hmiss; reflexivity.
Qed.

Lemma resolveLoop_more_fuel fuel fuel' s :
  (fuel <= fuel')%nat ->
  forall cs acc ps,
    resolveLoop fuel s cs acc = Some ps ->
    resolveLoop fuel' s cs acc = Some ps.
Proof.
  intros Hle. induction cs as [| c cs IH]; intros acc ps H; cbn in *.
  - assumption.
  - destruct (findPrimaryContact fuel s c) as [r |] eqn:Hr; [| discriminate].
    rewrite (findPrimaryContact_more_fuel s fuel fuel' c r Hr Hle).
    cbn in *. now apply IH.
Qed.

Lemma identifyContact_more_fuel fuel fuel' now s e p res :
  identifyContact fuel now s e p = Some res ->
  (fuel <= fuel')%nat ->
  identifyContact fuel' now s e p = Some res.
Proof.
  intros H Hle. unfold identifyContact in *.
  destruct (matchingContacts s e p) as [| m ms]; [assumption |].
  unfold resolvePrimaries in *.
  destruct (resolveLoop fuel s (m :: ms) []) as [ps |] eqn:Hl;
    [| discriminate].
  now rewrite (resolveLoop_more_fuel fuel fuel' s Hle _ _ _ Hl).
Qed.

(** X4. The bound on the chain walk never changes an answer: what
    [findPrimaryContact] and [identifyContact] return with some fuel they
    return with any larger fuel; and the contact [findPrimaryContact]
    returns is its own root, whatever the fuel. *)
Theorem answers_do_not_depend_on_fuel fuel fuel' now s :
  (fuel <= fuel')%nat ->
  (forall c r,
     findPrimaryContact fuel s c = Some r ->
     findPrimaryContact fuel' s c = Some r /\
     forall k, findPrimaryContact k s r = Some r) /\
  (forall e p res,
     identifyContact fuel now s e p = Some res ->
     identifyContact fuel' now s e p = Some res).
Proof.
  intros Hle. split.
  - intros c r H. split.
    + eapply findPrimaryContact_more_fuel; eauto.
    + eapply findPrimaryContact_fixed; eauto.
  - intros e p res H. eapply identifyContact_more_fuel; eauto.
Qed.

Lemma answers_do_not_depend_on_fuel_witness :
  identifyContact 1 8 twoGroups
    (Some "emmett@hv.edu"%string) (Some "333"%string)
  = identifyContact 50 8 twoGroups
      (Some "emmett@hv.edu"%string) (Some "333"%string).
Proof.
  destruct (identifyContact 1 8 twoGroups
              (Some "emmett@hv.edu"%string) (Some "333"%string))
    as [res |] eqn:Hrun.
  - symmetry.
    apply (proj2 (answers_do_not_depend_on_fuel 1 50 8 twoGroups
                    ltac:(lia)) _ _ res Hrun).
  - vm_compute in Hrun. discriminate.
Defined.

Lemma resolveLoop_unresolved fuel s :
  forall cs acc,
    resolveLoop fuel s cs acc = None ->
    exists c, In c cs /\ findPrimaryContact fuel s c = None.
Proof.
  induction cs as [| c cs IH]; intros acc H; cbn in H; [discriminate |].
  destruct (findPrimaryContact fuel s c) as [r |] eqn:Hr.
  - cbn in H. destruct (IH _ H) as (c' & Hc' & Hnone).
    exists c'. split; [now right | assumption].
  - exists c. split; [now left | assumption].
Qed.

(** X5. The service itself never throws: [update] always finds the row it
    demotes and [primaries[0]] always exists.  An answer is missing only
    when the chain walk of a matched contact has not ended. *)
Theorem no_answer_only_from_open_walk fuel now s e p :
  identifyContact fuel now s e p = None ->
  exists c,
    In c (matchingContacts s e p) /\ findPrimaryContact fuel s c = None.
Proof.
  intros H.
  assert (Hin : forall c, In c (matchingContacts s e p) -> In c (rows s))
    by (intros c; apply matchingContacts_In).
  unfold identifyContact in H.
  destruct (matchingContacts s e p) as [| m ms] eqn:Hm; [discriminate |].
  destruct (resolvePrimaries fuel s (m :: ms)) as [ps |] eqn:Hps.
  - exfalso.
    destruct (resolvePrimaries_spec _ _ _ _ Hin Hps)
      as (_ & Hmem & _ & _ & Hne).
    destruct ps as [| can others]; [now elim Hne |].
    cbn in H.
    assert (Hmerge : mergeLoop can others s <> None).
    { apply mergeLoop_defined. intros o Ho. apply in_map.
      apply Hmem. now right. }
    destruct (mergeLoop can others s); [discriminate | congruence].
  - unfold resolvePrimaries in Hps.
    destruct (resolveLoop fuel s (m :: ms) []) as [ps |] eqn:Hl;
      [discriminate |].
    now apply resolveLoop_unresolved in Hl.
Qed.

Lemma no_answer_only_from_open_walk_witness :
  exists c,
    In c (matchingContacts selfLinked (Some "doc@hv.edu"%string) None) /\
    findPrimaryContact 7 selfLinked c = None.
Proof.
  apply (no_answer_only_from_open_walk 7 9 selfLinked
           (Some "doc@hv.edu"%string) None).
  reflexivity.
Defined.

(* ================================================================= *)
(** ** Requests with nothing to match on *)

Lemma conditions_none e p :
  truthy e = false -> truthy p = false -> conditions e p = [].
Proof.
  intros He Hp. unfold conditions.
  destruct e as [v |], p as [w |]; rewrite ?He, ?Hp; reflexivity.
Qed.

(** The view of a contact no row is linked to. *)
Lemma buildResponse_alone s n :
  (forall c, In c (rows s) -> linkedId c <> Some (id n)) ->
  buildResponse s n =
  mkResponse (id n) (pushIfTruthy (email n) [])
             (pushIfTruthy (phoneNumber n) []) [].
Proof.
  intros Hnone. unfold buildResponse, findMany.
  rewrite filter_none; [reflexivity |].
  intros c Hc. cbn [selects satisfies].
  destruct (optZIs (id n) (linkedId c)) eqn:Hl; [| reflexivity].
  apply optZIs_true in Hl. now elim (Hnone c Hc).
Qed.

Lemma pushIfTruthy_falsy v : truthy v = false -> pushIfTruthy v [] = [].
Proof.
  intros H. unfold pushIfTruthy. destruct v; [now rewrite H | reflexivity].
Qed.

(** X6. A request with no usable field (each one null or the empty string)
    matches no row, not even rows whose own fields are null or empty: every
    such call appends a new primary with those fields and answers with its
    id and three empty lists. *)
Theorem empty_request_inserts_primary fuel now s e p :
  truthy e = false -> truthy p = false ->
  linksAssigned s ->
  matchingContacts s e p = [] /\
  identifyContact fuel now s e p =
    Some (mkStore (rows s ++ [newRow s now e p None primary]) (nextId s + 1),
          mkResponse (nextId s) [] [] []).
Proof.
  intros He Hp Hlinks.
  assert (Hnone : matchingContacts s e p = []).
  { unfold matchingContacts, findMany. rewrite (conditions_none e p He Hp).
    rewrite filter_none; reflexivity. }
  split; [assumption |].
  unfold identifyContact. rewrite Hnone. cbn [create].
  rewrite buildResponse_alone.
  - cbn [id email phoneNumber newRow].
    now rewrite (pushIfTruthy_falsy e He), (pushIfTruthy_falsy p Hp).
  - intros c Hc Hl. cbn [rows id] in *. apply in_app_or in Hc.
    destruct Hc as [Hc | [<- | []]]; [| discriminate].
    specialize (Hlinks c _ Hc Hl). lia.
Qed.

Lemma empty_request_inserts_primary_witness :
  identifyContact 4 9 blankOnly (Some EmptyString) None =
    Some (mkStore (rows blankOnly
                   ++ [row 2 (Some EmptyString) None None primary 9]) 3,
          mkResponse 2 [] [] []).
Proof.
  refine (proj2 (empty_request_inserts_primary 4 9 blankOnly
                   (Some EmptyString) None eq_refl eq_refl _)).
  intros c l Hc. rows_cases Hc. discriminate.
Defined.

(* ================================================================= *)
(** ** The route *)

Lemma handleIdentify_handleWith fuel now s be bp :
  handleIdentify fuel now s be bp = handleWith trim fuel now s be bp.
Proof. reflexivity. Qed.

Lemma hasContactInfo_sameData c c' :
  sameData c c' -> hasContactInfo c' = hasContactInfo c.
Proof.
  intros (_ & He & Hp & _). unfold hasContactInfo. now rewrite He, Hp.
Qed.

Lemma Forall2_In_right {A B : Type} (R : A -> B -> Prop) l l' y :
  Forall2 R l l' -> In y l' -> exists x, In x l /\ R x y.
Proof.
  induction 1 as [| a b l l' Hab _ IH]; intros Hy; [destruct Hy |].
  destruct Hy as [<- | Hy].
  - exists a. split; [now left | assumption].
  - destruct (IH Hy) as (x & Hx & Hr). exists x. split; [now right | assumption].
Qed.

(** X7. Through the route, whatever [trim] does: a body whose two fields
    are both missing or empty is refused with 400 and the service is not
    called; and when every stored row has a non-empty email or phone number,
    so has every row after a call that was answered.  No row without
    contact information enters the table through the route. *)
Theorem route_keeps_contact_info trimFn fuel now s be bp :
  (truthy be = false -> truthy bp = false ->
   handleWith trimFn fuel now s be bp = None) /\
  (forall s' r,
     (forall c, In c (rows s) -> hasContactInfo c = true) ->
     handleWith trimFn fuel now s be bp = Some (Some (s', r)) ->
     forall c, In c (rows s') -> hasContactInfo c = true).
Proof.
  split.
  - intros He Hp. unfold handleWith, prepareWith.
    destruct be, bp; rewrite ?He, ?Hp; reflexivity.
  - intros s' r Hall H c Hc. unfold handleWith in H.
    set (e := prepareWith trimFn be) in *.
    set (p := prepareWith trimFn bp) in *.
    destruct (negb (truthy e) && negb (truthy p)) eqn:Hguard; [discriminate |].
    injection H as Hrun.
    assert (Hgiven : truthy e || truthy p = true).
    { destruct (truthy e), (truthy p); cbn in *; congruence. }
    destruct (identifyContact_rows _ _ _ _ _ _ _ Hrun)
      as (Hkept & Hrows & Hins).
    rewrite Hrows in Hc. apply in_app_or in Hc. destruct Hc as [Hc | Hc].
    + destruct (Forall2_In_right _ _ _ _ Hkept Hc) as (c0 & Hc0 & Hsame).
      rewrite (hasContactInfo_sameData c0 c Hsame). now apply Hall.
    + destruct Hins as [(_ & Hi) | (can & others & s1 & _ & _ & _ & _ & Hi)];
        rewrite Hi in Hc.
      * destruct Hc as [<- | []]. exact Hgiven.
      * destruct (hasNewInformation s1 can e p); [| destruct Hc].
        destruct Hc as [<- | []]. exact Hgiven.
Qed.

Lemma route_keeps_contact_info_witness :
  exists s' r,
    handleIdentify 4 8 twoGroups (Some " emmett@hv.edu "%string)
      (Some "999"%string) = Some (Some (s', r)) /\
    forall c, In c (rows s') -> hasContactInfo c = true.
Proof.
  destruct (handleIdentify 4 8 twoGroups (Some " emmett@hv.edu "%string)
              (Some "999"%string)) as [[[s' r] |] |] eqn:Hrun.
  - exists s', r. split; [reflexivity |].
    rewrite handleIdentify_handleWith in Hrun.
    apply (proj2 (route_keeps_contact_info trim 4 8 twoGroups
                    (Some " emmett@hv.edu "%string) (Some "999"%string)) s' r);
      [| exact Hrun].
    intros c Hc. rows_cases Hc; reflexivity.
  - vm_compute in Hrun. discriminate.
  - vm_compute in Hrun. discriminate.
Defined.

(* ================================================================= *)
(** ** What a response holds *)

Lemma secondariesOf_In s prim c :
  In c (secondariesOf s prim) <->
  In c (rows s) /\ linkedId c = Some (id prim).
Proof.
  unfold secondariesOf. rewrite findMany_In. cbn [selects satisfies].
  now rewrite optZIs_true.
Qed.

Lemma view_values_In f s prim v :
  In v (keepFirst (existingValues f (prim :: secondariesOf s prim))) <->
  v <> EmptyString /\
  (f prim = Some v \/
   exists c, In c (rows s) /\ linkedId c = Some (id prim) /\ f c = Some v).
Proof.
  rewrite keepFirst_In, existingValues_In. split.
  - intros [(c & [<- | Hc] & Hf) Hne]; (split; [assumption |]).
    + now left.
    + right. apply secondariesOf_In in Hc. exists c. tauto.
  - intros [Hne [Hf | (c & Hc & Hl & Hf)]]; (split; [| assumption]).
    + exists prim. split; [now left | assumption].
    + exists c. split; [right; apply secondariesOf_In; tauto | assumption].
Qed.

(** Membership in the three lists of a view. *)
Lemma buildResponse_In_iff s prim :
  (forall v,
     In v (emails (buildResponse s prim)) <->
     v <> EmptyString /\
     (email prim = Some v \/
      exists c, In c (rows s) /\ linkedId c = Some (id prim) /\
                email c = Some v)) /\
  (forall v,
     In v (phoneNumbers (buildResponse s prim)) <->
     v <> EmptyString /\
     (phoneNumber prim = Some v \/
      exists c, In c (rows s) /\ linkedId c = Some (id prim) /\
                phoneNumber c = Some v)) /\
  (forall i,
     In i (secondaryContactIds (buildResponse s prim)) <->
     exists c, In c (rows s) /\ linkedId c = Some (id prim) /\ id c = i).
Proof.
  rewrite buildResponse_view.
  cbn [emails phoneNumbers secondaryContactIds].
  split; [| split].
  - intros v. apply view_values_In.
  - intros v. apply view_values_In.
  - intros i. rewrite in_map_iff. split.
    + intros (c & Hid & Hc). apply secondariesOf_In in Hc. exists c. tauto.
    + intros (c & Hc & Hl & Hid). exists c.
      split; [assumption | apply secondariesOf_In; tauto].
Qed.

(** X8. The view [buildResponse] builds, for any table and any contact: an
    email is listed exactly when it is not empty and is the contact's own or
    that of a row linked to the contact; the same holds for phone numbers;
    and an id is listed exactly when it is the id of a row linked to the
    contact.  The lists never hold the empty string. *)
Theorem buildResponse_members s prim :
  (forall v,
     In v (emails (buildResponse s prim)) <->
     v <> EmptyString /\
     (email prim = Some v \/
      exists c, In c (rows s) /\ linkedId c = Some (id prim) /\
                email c = Some v)) /\
  (forall v,
     In v (phoneNumbers (buildResponse s prim)) <->
     v <> EmptyString /\
     (phoneNumber prim = Some v \/
      exists c, In c (rows s) /\ linkedId c = Some (id prim) /\
                phoneNumber c = Some v)) /\
  (forall i,
     In i (secondaryContactIds (buildResponse s prim)) <->
     exists c, In c (rows s) /\ linkedId c = Some (id prim) /\ id c = i).
Proof.
  rewrite buildResponse_view.
  cbn [emails phoneNumbers secondaryContactIds].
  split; [| split].
  - intros v. apply view_values_In.
  - intros v. apply view_values_In.
  - intros i. rewrite in_map_iff. split.
    + intros (c & Hid & Hc). apply secondariesOf_In in Hc. exists c. tauto.
    + intros (c & Hc & Hl & Hid). exists c.
      split; [assumption | apply secondariesOf_In; tauto].
Qed.

Lemma hasNew_false_known f group v :
  hasNew (Some v) (existingValues f group) = false ->
  exists c, In c group /\ f c = Some v.
Proof.
  cbn. rewrite negb_false_iff, includes_true, existingValues_In. tauto.
Qed.

(** X9. On a table with unique ids, the answer of a call always lists what
    the request brought: a request email that is not empty is among the
    emails of the response, and a request phone number that is not empty is
    among its phone numbers. *)
Theorem response_lists_request fuel now s e p s' r :
  uniqueIds s ->
  identifyContact fuel now s e p = Some (s', r) ->
  (forall v, e = Some v -> v <> EmptyString -> In v (emails r)) /\
  (forall v, p = Some v -> v <> EmptyString -> In v (phoneNumbers r)).
Proof.
  intros Hu Hrun.
  assert (Hview : exists prim,
            r = buildResponse s' prim /\
            forall f : Contact -> option string,
              (f = email \/ f = phoneNumber) ->
              forall v, (f = email -> e = Some v) ->
                        (f = phoneNumber -> p = Some v) ->
                f prim = Some v \/
                exists c, In c (rows s') /\ linkedId c = Some (id prim) /\
                          f c = Some v).
  { destruct (matchingContacts s e p) as [| m ms] eqn:Hmatch.
    - apply identifyContact_cases in Hrun.
      destruct Hrun as [(_ & _ & Hr) | (can & others & s1 & Hsome & _)];
        [| now elim Hsome].
      eexists. split; [exact Hr |].
      intros f [-> | ->] v He Hp; left; cbn; auto.
    - assert (Hsome : matchingContacts s e p <> [])
        by (rewrite Hmatch; discriminate).
      clear Hmatch m ms.
      destruct (identifyContact_matched _ _ _ _ _ _ _ Hrun Hsome)
        as (can & others & Hps & _ & Hs' & Hr).
      cbn zeta in *.
      set (D := map id others) in *.
      set (s1 := mkStore (map (mergeRow (id can) D) (rows s)) (nextId s)) in *.
      exists can. split; [assumption |].
      assert (Hin : forall x, In x (matchingContacts s e p) -> In x (rows s))
        by (intros x; apply matchingContacts_In).
      destruct (resolvePrimaries_spec _ _ _ _ Hin Hps) as (_ & Hmem & _).
      destruct (Hmem can (or_introl eq_refl)) as (Hcan & _).
      intros f Hf v He Hp.
      destruct (hasNewInformation s1 can e p) eqn:Hnew.
      + right. exists (newRow s1 now e p (Some (id can)) secondary).
        rewrite Hs'. cbn [rows]. split; [apply in_or_app; right; now left |].
        split; [reflexivity |].
        destruct Hf as [-> | ->]; cbn; auto.
      + unfold hasNewInformation in Hnew. apply orb_false_iff in Hnew.
        destruct Hnew as [Hne Hnp].
        assert (Hknown : exists c, In c (allLinked s1 can) /\ f c = Some v).
        { destruct Hf as [-> | ->].
          - rewrite (He eq_refl) in Hne. now apply hasNew_false_known.
          - rewrite (Hp eq_refl) in Hnp. now apply hasNew_false_known. }
        destruct Hknown as (c & Hc & Hfc).
        apply allLinked_In in Hc. destruct Hc as [Hc [Hid | Hl]].
        * left. cbn [rows s1] in Hc. apply in_map_iff in Hc.
          destruct Hc as (c0 & <- & Hc0).
          destruct (mergeRow_sameData (id can) D c0)
            as (Hid0 & Hem & Hph & _).
          assert (c0 = can).
          { apply (unique_by_id (rows s)); auto. congruence. }
          subst c0. destruct Hf as [-> | ->]; congruence.
        * right. exists c. rewrite Hs'. auto. }
  destruct Hview as (prim & -> & Hown).
  destruct (buildResponse_In_iff s' prim) as (Hem & Hph & _).
  split; intros v Hv Hne.
  - apply Hem. split; [assumption |].
    apply (Hown email); auto. intros Hf. exfalso.
    assert (H1 : email (row 0 (Some "e"%string) None None primary 0)
                 = phoneNumber (row 0 (Some "e"%string) None None primary 0))
      by (now rewrite Hf).
    discriminate.
  - apply Hph. split; [assumption |].
    apply (Hown phoneNumber); auto. intros Hf. exfalso.
    assert (H1 : email (row 0 (Some "e"%string) None None primary 0)
                 = phoneNumber (row 0 (Some "e"%string) None None primary 0))
      by (now rewrite <- Hf).
    discriminate.
Qed.

Lemma response_lists_request_witness :
  exists s' r,
    identifyContact 4 8 twoGroups
      (Some "emmett@hv.edu"%string) (Some "999"%string) = Some (s', r) /\
    In "emmett@hv.edu"%string (emails r) /\
    In "999"%string (phoneNumbers r).
Proof.
  destruct (identifyContact 4 8 twoGroups
              (Some "emmett@hv.edu"%string) (Some "999"%string))
    as [[s' r] |] eqn:Hrun.
  - exists s', r. split; [reflexivity |].
    destruct (response_lists_request 4 8 twoGroups _ _ s' r
                (proj1 twoGroups_invariant) Hrun) as [He Hp].
    split; [apply He | apply Hp]; (reflexivity || discriminate).
  - vm_compute in Hrun. discriminate.
Defined.

(* ================================================================= *)
(** ** What a call does to the rows it finds *)

Lemma mergeRow_nobody can c : mergeRow can [] c = c.
Proof. unfold mergeRow. cbn. now destruct (linkedId c). Qed.

Lemma buildResponse_id s prim :
  primaryContatctId (buildResponse s prim) = id prim.
Proof. now rewrite buildResponse_view. Qed.

(** The old rows after a call: the merge of the demoted primaries into the
    primary the call answers with, row by row. *)
Lemma identifyContact_kept fuel now s e p s' r :
  identifyContact fuel now s e p = Some (s', r) ->
  exists demoted,
    ((matchingContacts s e p = [] /\ demoted = []) \/
     (exists can,
        resolvePrimaries fuel s (matchingContacts s e p)
        = Some (can :: demoted) /\
        primaryContatctId r = id can)) /\
    keptRows s s' =
      map (mergeRow (primaryContatctId r) (map id demoted)) (rows s).
Proof.
  intros Hrun.
  destruct (matchingContacts s e p) as [| m ms] eqn:Hmatch.
  - exists []. split; [now left |].
    apply identifyContact_cases in Hrun.
    destruct Hrun as [(_ & -> & _) | (can & others & s1 & Hsome & _)];
      [| now elim Hsome].
    rewrite (map_ext _ (fun c => c) (mergeRow_nobody _)), map_id.
    unfold keptRows. cbn [rows].
    now destruct (split_at_length (rows s) [newRow s now e p None primary]
                    (rows s) eq_refl) as [-> _].
  - assert (Hsome : matchingContacts s e p <> [])
      by (rewrite Hmatch; discriminate).
    rewrite <- Hmatch.
    destruct (identifyContact_matched _ _ _ _ _ _ _ Hrun Hsome)
      as (can & others & Hps & _ & Hs' & Hr).
    cbn zeta in *.
    assert (Hid : primaryContatctId r = id can)
      by (rewrite Hr; apply buildResponse_id).
    exists others. split; [right; exists can; auto |].
    rewrite Hid, Hs'. rewrite keptRows_after_insert; [reflexivity |].
    cbn. apply length_map.
Qed.

Lemma mergeRow_relinkedOnlyTo can demoted c :
  relinkedOnlyTo can c (mergeRow can demoted c).
Proof.
  unfold mergeRow, relinkedOnlyTo.
  destruct (existsb (Z.eqb (id c)) demoted).
  - cbn. repeat split; auto; discriminate.
  - destruct (linkedId c) as [l |] eqn:Hl.
    + destruct (existsb (Z.eqb l) demoted); cbn; rewrite ?Hl;
        repeat split; auto; discriminate.
    + rewrite Hl. repeat split; auto.
Qed.

(** X10. What a call never does to a row it found in the table: it never
    turns a secondary into a primary and never clears a [linkedId]; and
    when it changes the [linkedId] or the [linkPrecedence] of a row, the row
    ends linked to the primary the call answers with. *)
Theorem identifyContact_only_relinks fuel now s e p s' r :
  identifyContact fuel now s e p = Some (s', r) ->
  Forall2 (relinkedOnlyTo (primaryContatctId r)) (rows s) (keptRows s s').
Proof.
  intros Hrun.
  destruct (identifyContact_kept _ _ _ _ _ _ _ Hrun) as (demoted & _ & ->).
  apply Forall2_map_right. intros c _. apply mergeRow_relinkedOnlyTo.
Qed.

Lemma identifyContact_only_relinks_witness :
  exists s' r,
    identifyContact 4 8 twoGroups
      (Some "emmett@hv.edu"%string) (Some "333"%string) = Some (s', r) /\
    Forall2 (relinkedOnlyTo 2) (rows twoGroups) (keptRows twoGroups s').
Proof.
  destruct (identifyContact 4 8 twoGroups
              (Some "emmett@hv.edu"%string) (Some "333"%string))
    as [[s' r] |] eqn:Hrun.
  - exists s', r. split; [reflexivity |].
    pose proof (identifyContact_only_relinks 4 8 twoGroups _ _ s' r Hrun)
      as H.
    vm_compute in Hrun. injection Hrun as <- <-. exact H.
  - vm_compute in Hrun. discriminate.
Defined.

(** X11. A call rewrites no row outside the groups it merges: a row that is
    neither one of the non-canonical primaries the call resolved nor linked
    to one is left exactly as it was.  In particular a call that resolves
    its matches to one primary, or matches nothing, leaves every row it
    found untouched. *)
Theorem rows_outside_merge_untouched fuel now s e p s' r :
  identifyContact fuel now s e p = Some (s', r) ->
  exists demoted,
    ((matchingContacts s e p = [] /\ demoted = []) \/
     (exists can,
        resolvePrimaries fuel s (matchingContacts s e p)
        = Some (can :: demoted) /\
        primaryContatctId r = id can)) /\
    Forall2 (fun c c' => inMergedGroup demoted c \/ c' = c)
            (rows s) (keptRows s s') /\
    (demoted = [] -> keptRows s s' = rows s).
Proof.
  intros Hrun.
  destruct (identifyContact_kept _ _ _ _ _ _ _ Hrun)
    as (demoted & Hwhich & Hkept).
  exists demoted. split; [assumption |]. rewrite Hkept. split.
  - apply Forall2_map_right. intros c _. unfold inMergedGroup.
    destruct (in_dec Z.eq_dec (id c) (map id demoted)) as [Hin | Hout];
      [left; now left |].
    destruct (linkedId c) as [l |] eqn:Hl.
    + destruct (in_dec Z.eq_dec l (map id demoted)) as [Hlin | Hlout].
      * left. right. exists l. auto.
      * right. apply mergeRow_untouched; [assumption |].
        intros l' Hl'. congruence.
    + right. apply mergeRow_untouched; [assumption |].
      intros l' Hl'. congruence.
  - intros ->. cbn [map].
    now rewrite (map_ext _ (fun c => c) (mergeRow_nobody _)), map_id.
Qed.

Lemma rows_outside_merge_untouched_witness :
  exists s' r,
    identifyContact 4 8 twoGroups
      (Some "emmett@hv.edu"%string) (Some "999"%string) = Some (s', r) /\
    keptRows twoGroups s' = rows twoGroups.
Proof.
  destruct (identifyContact 4 8 twoGroups
              (Some "emmett@hv.edu"%string) (Some "999"%string))
    as [[s' r] |] eqn:Hrun.
  - exists s', r. split; [reflexivity |].
    destruct (rows_outside_merge_untouched 4 8 twoGroups _ _ s' r Hrun)
      as (demoted & Hwhich & _ & Hnone).
    apply Hnone.
    destruct Hwhich as [(_ & ->) | (can & Hps & _)]; [reflexivity |].
    vm_compute in Hps. now injection Hps as _ <-.
  - vm_compute in Hrun. discriminate.
Defined.

(* ================================================================= *)
(** ** Calls on tables with well-formed groups *)

(** A call that found rows, on a table with well-formed groups. *)
Lemma matched_call_on_groups fuel now s e p s' r :
  groupInvariant s ->
  identifyContact (S fuel) now s e p = Some (s', r) ->
  matchingContacts s e p <> [] ->
  exists can others,
    let D := map id others in
    let s1 := mkStore (map (mergeRow (id can) D) (rows s)) (nextId s) in
    In can (rows s) /\ linkPrecedence can = primary /\ linkedId can = None /\
    ~ In (id can) D /\
    (forall o, In o others ->
       In o (rows s) /\ linkPrecedence o = primary /\ linkedId o = None) /\
    s' = (if hasNewInformation s1 can e p
          then mkStore (rows s1 ++ [newRow s1 now e p (Some (id can)) secondary])
                       (nextId s1 + 1)
          else s1) /\
    r = buildResponse s' can /\
    (forall c, In c (rows s) -> selects (OR (conditions e p)) c = true ->
       mergeRow (id can) D c = can \/
       linkedId (mergeRow (id can) D c) = Some (id can)).
Proof.
  intros (Hu & Hids & Hflat) Hrun Hsome.
  destruct (identifyContact_matched _ _ _ _ _ _ _ Hrun Hsome)
    as (can & others & Hps & _ & Hs' & Hr).
  exists can, others. cbn zeta in *.
  set (D := map id others) in *.
  assert (Hin : forall x, In x (matchingContacts s e p) -> In x (rows s))
    by (intros x; apply matchingContacts_In).
  destruct (resolvePrimaries_spec _ _ _ _ Hin Hps)
    as (Hnd & Hmem & Hcov & _ & _).
  destruct (Hmem can (or_introl eq_refl)) as (Hcan & Hend & _).
  destruct (flat_chainEnd s can Hflat Hcan Hend) as [Hprim Hnone].
  cbn [map] in Hnd. apply NoDup_cons_iff in Hnd. destruct Hnd as [Hnot _].
  fold D in Hnot.
  repeat split; try assumption.
  - apply Hmem. now right.
  - destruct (Hmem o (or_intror H)) as (Ho & Hoend & _).
    now destruct (flat_chainEnd s o Hflat Ho Hoend).
  - destruct (Hmem o (or_intror H)) as (Ho & Hoend & _).
    now destruct (flat_chainEnd s o Hflat Ho Hoend).
  - intros c Hc Hsel.
    assert (Hcm : In c (matchingContacts s e p))
      by (apply matchingContacts_iff; auto).
    destruct (flat_root fuel s c Hu Hflat Hc)
      as (K & HK & HKin & _ & _ & Hrel).
    pose proof (Hcov c K Hcm HK) as Hid. cbn [map] in Hid. fold D in Hid.
    destruct Hrel as [<- | [_ Hl]].
    + destruct Hid as [Hid | Hid].
      * left. assert (can = c) by (apply (unique_by_id (rows s)); auto).
        subst c. apply mergeRow_untouched; [assumption |].
        intros l Hl. congruence.
      * right. now rewrite (mergeRow_demoted _ _ _ Hid).
    + right. apply mergeRow_joins with (id K); [assumption |].
      destruct Hid as [Hid | Hid]; [now left | now right].
Qed.




Lemma rootId_mergeRow s can others a :
  uniqueIds s -> In a (rows s) ->
  (forall o, In o others -> In o (rows s) /\ linkedId o = None) ->
  rootId (mergeRow can (map id others) a) =
  if existsb (Z.eqb (rootId a)) (map id others) then can else rootId a.
Proof.
  intros Hu Ha Hothers. set (D := map id others).
  destruct (linkedId a) as [l |] eqn:Hl.
  - assert (Hra : rootId a = l) by (unfold rootId; now rewrite Hl).
    rewrite Hra.
    destruct (existsb (Z.eqb (id a)) D) eqn:Hida.
    + (* a demoted primary has no link *)
      exfalso. apply existsb_eqb_In in Hida. apply in_map_iff in Hida.
      destruct Hida as (o & Hid & Ho). destruct (Hothers o Ho) as [Horow Hnone].
      assert (o = a) by (apply (unique_by_id (rows s)); auto).
      subst o. congruence.
    + unfold mergeRow. fold D. rewrite Hida, Hl.
      destruct (existsb (Z.eqb l) D); unfold rootId; cbn; now rewrite ?Hl.
  - assert (Hra : rootId a = id a) by (unfold rootId; now rewrite Hl).
    rewrite Hra. unfold mergeRow. fold D. rewrite Hl.
    destruct (existsb (Z.eqb (id a)) D); unfold rootId; cbn; now rewrite ?Hl.
Qed.

(** The rows that take the place of the rows of the old table. *)
Lemma images_of_rows fuel now s e p s' r :
  groupInvariant s ->
  identifyContact fuel now s e p = Some (s', r) ->
  exists demoted,
    (forall o, In o demoted -> In o (rows s) /\ linkedId o = None) /\
    forall a a',
      In a (rows s) -> In a' (rows s') -> id a' = id a ->
      a' = mergeRow (primaryContatctId r) (map id demoted) a.
Proof.
  intros (Hu & Hids & Hflat) Hrun.
  destruct (identifyContact_kept _ _ _ _ _ _ _ Hrun)
    as (demoted & Hwhich & Hkept).
  exists demoted. split.
  - destruct Hwhich as [(_ & ->) | (can & Hps & _)]; [intros o [] |].
    assert (Hin : forall x, In x (matchingContacts s e p) -> In x (rows s))
      by (intros x; apply matchingContacts_In).
    destruct (resolvePrimaries_spec _ _ _ _ Hin Hps) as (_ & Hmem & _).
    intros o Ho. destruct (Hmem o (or_intror Ho)) as (Horow & Hend & _).
    split; [assumption |].
    now destruct (flat_chainEnd s o Hflat Horow Hend).
  - intros a a' Ha Ha' Hid.
    destruct (identifyContact_rows _ _ _ _ _ _ _ Hrun) as (_ & Hrows & Hins).
    rewrite Hrows in Ha'. apply in_app_or in Ha'. destruct Ha' as [Ha' | Ha'].
    + rewrite Hkept in Ha'. apply in_map_iff in Ha'.
      destruct Ha' as (a0 & <- & Ha0).
      assert (a0 = a).
      { apply (unique_by_id (rows s)); auto.
        destruct (mergeRow_sameData (primaryContatctId r) (map id demoted) a0)
          as (Hid0 & _).
        congruence. }
      now subst a0.
    + exfalso. specialize (Hids a Ha).
      destruct Hins as [(_ & Hi) | (can & others & s1 & _ & _ & Hm & _ & Hi)];
        rewrite Hi in Ha'.
      * destruct Ha' as [<- | []]. cbn in Hid. lia.
      * destruct (mergeLoop_frame _ _ _ _ Hm) as [_ Hnext].
        destruct (hasNewInformation s1 can e p); [| destruct Ha'].
        destruct Ha' as [<- | []]. cbn in Hid. lia.
Qed.

(** X13. Groups are never split.  On a table with well-formed groups, two
    rows that hang from the same primary before a call hang from the same
    primary after it. *)
Theorem groups_never_split fuel now s e p s' r a b a' b' :
  groupInvariant s ->
  identifyContact fuel now s e p = Some (s', r) ->
  In a (rows s) -> In b (rows s) ->
  In a' (rows s') -> In b' (rows s') ->
  id a' = id a -> id b' = id b ->
  rootId a = rootId b ->
  rootId a' = rootId b'.
Proof.
  intros Hinv Hrun Ha Hb Ha' Hb' Hida Hidb Hroot.
  destruct (images_of_rows _ _ _ _ _ _ _ Hinv Hrun) as (demoted & Hdem & Himg).
  rewrite (Himg a a' Ha Ha' Hida), (Himg b b' Hb Hb' Hidb).
  destruct Hinv as (Hu & _).
  rewrite (rootId_mergeRow s _ demoted a Hu Ha Hdem).
  rewrite (rootId_mergeRow s _ demoted b Hu Hb Hdem).
  now rewrite Hroot.
Qed.

Lemma groups_never_split_witness :
  exists s' r,
    identifyContact 4 8 twoGroups
      (Some "emmett@hv.edu"%string) (Some "333"%string) = Some (s', r) /\
    rootId (row 4 (Some "doc@hv.edu"%string) (Some "333"%string)
                (Some 2) secondary 7)
    = rootId (row 1 (Some "doc@hv.edu"%string) (Some "111"%string)
                  (Some 2) secondary 5).
Proof.
  destruct (identifyContact 4 8 twoGroups
              (Some "emmett@hv.edu"%string) (Some "333"%string))
    as [[s' r] |] eqn:Hrun.
  - exists s', r. split; [reflexivity |].
    apply (groups_never_split 4 8 twoGroups
             (Some "emmett@hv.edu"%string) (Some "333"%string) s' r
             (row 4 (Some "doc@hv.edu"%string) (Some "333"%string)
                  (Some 1) secondary 7)
             (row 1 (Some "doc@hv.edu"%string) (Some "111"%string)
                  None primary 5)
             (row 4 (Some "doc@hv.edu"%string) (Some "333"%string)
                  (Some 2) secondary 7)
             (row 1 (Some "doc@hv.edu"%string) (Some "111"%string)
                  (Some 2) secondary 5)
             twoGroups_invariant Hrun);
      try (vm_compute in Hrun; injection Hrun as <- _);
      cbn; auto 6.
  - vm_compute in Hrun. discriminate.
Defined.

Lemma NoDup_map_filter {A B : Type} (g : A -> B) (f : A -> bool) l :
  NoDup (map g l) -> NoDup (map g (filter f l)).
Proof.
  induction l as [| x l IH]; cbn; intros Hnd; [constructor |].
  inversion Hnd as [| ? ? Hnotin Hnd']; subst.
  destruct (f x); cbn; [| auto].
  constructor; [| auto].
  intros Hin. apply Hnotin. apply in_map_iff in Hin.
  destruct Hin as (y & Hy & Hyin). apply filter_In in Hyin.
  apply in_map_iff. exists y. tauto.
Qed.

(** X14. On a table with well-formed groups, the clock not having gone
    back, the answer of a call is consistent with the table the call leaves:
    [primaryContatctId] is the id of a row that is a primary without a
    link; [secondaryContactIds] has no id twice and does not hold the
    primary's id; and each id in it is the id of a secondary row whose
    [linkedId] is [primaryContatctId]. *)
Theorem response_matches_table fuel now s e p s' r :
  groupInvariant s ->
  clockOk s now ->
  identifyContact fuel now s e p = Some (s', r) ->
  (exists P, In P (rows s') /\ id P = primaryContatctId r /\
             linkPrecedence P = primary /\ linkedId P = None) /\
  NoDup (secondaryContactIds r) /\
  ~ In (primaryContatctId r) (secondaryContactIds r) /\
  (forall i, In i (secondaryContactIds r) ->
     exists c, In c (rows s') /\ id c = i /\
               linkPrecedence c = secondary /\
               linkedId c = Some (primaryContatctId r)).
Proof.
  intros Hinv Hclock Hrun.
  pose proof (identifyContact_keeps_invariant _ _ _ _ _ _ _ Hinv Hclock Hrun)
    as (Hu' & _ & Hflat').
  assert (Hrun' : identifyContact (S fuel) now s e p = Some (s', r))
    by (eapply identifyContact_more_fuel; eauto).
  assert (Hprim : exists P, r = buildResponse s' P /\ In P (rows s') /\
                            linkPrecedence P = primary /\ linkedId P = None).
  { destruct (matchingContacts s e p) as [| m ms] eqn:Hmatch.
    - apply identifyContact_cases in Hrun'.
      destruct Hrun' as [(_ & Hs' & Hr) | (can & others & s1 & Hsome & _)];
        [| now elim Hsome].
      eexists. split; [exact Hr |]. rewrite Hs'. cbn [rows].
      repeat split. apply in_or_app. right. now left.
    - assert (Hsome : matchingContacts s e p <> [])
        by (rewrite Hmatch; discriminate).
      destruct (matched_call_on_groups _ _ _ _ _ _ _ Hinv Hrun' Hsome)
        as (can & others & Hcan & Hp & Hl & Hnot & _ & Hs' & Hr & _).
      cbn zeta in *. exists can. repeat split; try assumption.
      rewrite Hs'. apply rows_after_insert. cbn [rows].
      apply in_map_iff. exists can. split; [| assumption].
      apply mergeRow_untouched; [assumption |]. intros l Hl'. congruence. }
  destruct Hprim as (P & -> & HP & HPp & HPl).
  destruct (buildResponse_In_iff s' P) as (_ & _ & Hids).
  rewrite buildResponse_id.
  split; [exists P; auto |]. split; [| split].
  - rewrite buildResponse_view. cbn [secondaryContactIds].
    eapply Permutation_NoDup;
      [apply Permutation_sym, Permutation_map, secondariesOf_perm |].
    now apply NoDup_map_filter.
  - intros Hin. apply Hids in Hin. destruct Hin as (c & Hc & Hl & Hid).
    assert (c = P) by (apply (unique_by_id (rows s')); auto).
    subst c. congruence.
  - intros i Hin. apply Hids in Hin. destruct Hin as (c & Hc & Hl & Hid).
    exists c. repeat split; auto.
    destruct (Hflat' c Hc) as [[_ Hnone] | [Hsec _]]; [congruence | assumption].
Qed.

Lemma response_matches_table_witness :
  exists s' r,
    identifyContact 4 8 twoGroups
      (Some "emmett@hv.edu"%string) (Some "333"%string) = Some (s', r) /\
    NoDup (secondaryContactIds r) /\
    ~ In (primaryContatctId r) (secondaryContactIds r).
Proof.
  destruct (identifyContact 4 8 twoGroups
              (Some "emmett@hv.edu"%string) (Some "333"%string))
    as [[s' r] |] eqn:Hrun.
  - exists s', r. split; [reflexivity |].
    destruct (response_matches_table 4 8 twoGroups
                (Some "emmett@hv.edu"%string) (Some "333"%string) s' r
                twoGroups_invariant) as (_ & Hnd & Hnot & _).
    + intros c Hc. rows_cases Hc.
    + exact Hrun.
    + split; assumption.
  - vm_compute in Hrun. discriminate.
Defined.

(* ================================================================= *)
(** ** A new customer, then a new phone number *)






(* ================================================================= *)
(** ** Links keep naming rows *)

Lemma mergeRow_id can demoted c : id (mergeRow can demoted c) = id c.
Proof. now destruct (mergeRow_sameData can demoted c) as [H _]. Qed.

(** X16. Referential integrity.  If every [linkedId] of the table names a
    row of the table, the same holds after a call: the only id a call ever
    writes into a [linkedId] is the id of the primary it answers with, and
    that primary is a row of the table. *)
Theorem links_keep_resolving fuel now s e p s' r :
  linksResolve s ->
  identifyContact fuel now s e p = Some (s', r) ->
  linksResolve s' /\ In (primaryContatctId r) (map id (rows s')).
Proof.
  intros Hfk Hrun.
  destruct (identifyContact_kept _ _ _ _ _ _ _ Hrun)
    as (demoted & Hwhich & Hkept).
  destruct (identifyContact_rows _ _ _ _ _ _ _ Hrun) as (_ & Hrows & Hins).
  assert (Hkeptids : map id (keptRows s s') = map id (rows s)).
  { rewrite Hkept, map_map. apply map_ext. intros c. apply mergeRow_id. }
  assert (Hsub : forall i, In i (map id (rows s)) -> In i (map id (rows s'))).
  { intros i Hi. rewrite Hrows, map_app, Hkeptids. apply in_or_app. now left. }
  assert (Hprim : In (primaryContatctId r) (map id (rows s'))).
  { destruct Hwhich as [(Hnone & _) | (can & Hps & ->)].
    - destruct Hins as [(_ & Hi) | (can & others & s1 & Hsome & _)];
        [| now elim Hsome].
      apply identifyContact_cases in Hrun.
      destruct Hrun as [(_ & _ & ->) | (can & others & s1 & Hsome & _)];
        [| now elim Hsome].
      rewrite buildResponse_id, Hrows, map_app, Hi.
      apply in_or_app. right. now left.
    - apply Hsub. apply in_map.
      assert (Hin : forall x, In x (matchingContacts s e p) -> In x (rows s))
        by (intros x; apply matchingContacts_In).
      destruct (resolvePrimaries_spec _ _ _ _ Hin Hps) as (_ & Hmem & _).
      apply Hmem. now left. }
  split; [| assumption].
  intros c l Hc Hl. rewrite Hrows in Hc. apply in_app_or in Hc.
  destruct Hc as [Hc | Hc].
  - rewrite Hkept in Hc. apply in_map_iff in Hc. destruct Hc as (c0 & <- & Hc0).
    destruct (mergeRow_relinkedOnlyTo (primaryContatctId r) (map id demoted) c0)
      as (_ & _ & [Hsame | Hcan] & _).
    + apply Hsub. apply (Hfk c0); [assumption | congruence].
    + rewrite Hl in Hcan. injection Hcan as ->. assumption.
  - destruct Hins as [(_ & Hi) | (can & others & s1 & _ & Hps & _ & _ & Hi)];
      rewrite Hi in Hc.
    + destruct Hc as [<- | []]. discriminate.
    + destruct (hasNewInformation s1 can e p); [| destruct Hc].
      destruct Hc as [<- | []]. cbn in Hl. injection Hl as <-.
      destruct Hwhich as [(Hnone & _) | (can' & Hps' & Hid)].
      * rewrite Hnone in Hps. discriminate.
      * rewrite Hps in Hps'. injection Hps' as <- _. now rewrite <- Hid.
Qed.

Lemma links_keep_resolving_witness :
  exists s' r,
    identifyContact 4 8 twoGroups
      (Some "emmett@hv.edu"%string) (Some "333"%string) = Some (s', r) /\
    linksResolve s'.
Proof.
  destruct (identifyContact 4 8 twoGroups
              (Some "emmett@hv.edu"%string) (Some "333"%string))
    as [[s' r] |] eqn:Hrun.
  - exists s', r. split; [reflexivity |].
    apply (links_keep_resolving 4 8 twoGroups
             (Some "emmett@hv.edu"%string) (Some "333"%string) s' r);
      [| exact Hrun].
    intros c l Hc Hl. rows_cases Hc; try discriminate;
      injection Hl as <-; cbn; auto.
  - vm_compute in Hrun. discriminate.
Defined.

(* ================================================================= *)
(** ** The answer covers the groups the request touched *)



(** X18. On a table with well-formed groups, [findPrimaryContact] needs one
    step at most and returns the primary of the contact's group: a primary
    row without a link, in the same group as the contact and not created
    after it. *)
Theorem findPrimaryContact_on_groups fuel s c :
  groupInvariant s ->
  In c (rows s) ->
  exists K,
    findPrimaryContact (S fuel) s c = Some K /\
    In K (rows s) /\
    linkPrecedence K = primary /\ linkedId K = None /\
    sameGroup s c K /\
    createdAt K <= createdAt c.
Proof.
  intros (Hu & _ & Hflat) Hc. cbn [findPrimaryContact].
  destruct (Hflat c Hc) as [[Hp Hl] | (Hsec & P & HP & Hl & HPp & HPl & Hle)].
  - exists c. rewrite Hl. repeat split; auto; [apply rst_refl | lia].
  - exists P. rewrite Hl, (findUnique_unique s P Hu HP).
    repeat split; auto.
    + destruct fuel; cbn [findPrimaryContact]; now rewrite HPl.
    + apply rst_step. repeat split; auto.
Qed.

Lemma findPrimaryContact_on_groups_witness :
  exists K,
    findPrimaryContact 1 twoGroups
      (row 4 (Some "doc@hv.edu"%string) (Some "333"%string)
           (Some 1) secondary 7) = Some K /\
    linkPrecedence K = primary.
Proof.
  destruct (findPrimaryContact_on_groups 0 twoGroups
              (row 4 (Some "doc@hv.edu"%string) (Some "333"%string)
                   (Some 1) secondary 7) twoGroups_invariant)
    as (K & HK & _ & Hp & _).
  - cbn. auto 6.
  - exists K. split; assumption.
Defined.

(* ================================================================= *)
(** ** The contact a response is built from *)


